(** * Texture sampling and mip-map generation (src/scene/texture.cpp)

    A shallow embedding of the samplers, the mip-map generator and the
    texture facade of [namespace Textures], followed by the properties
    the specification states about them and by what the code shows beyond
    them.

    Numbers.  The C++ code computes on [float].  Here a float is an exact
    rational ([Qc], canonical rationals with Leibniz equality), and the
    operations are the exact ones: no result is rounded.  A statement that
    only follows the operations of the code in their order holds of the
    code with each operation rounded; a statement that needs more, a texel
    or a level index read off an exact product or sum, or an identity of
    exact arithmetic, names the results that have to be [binary32] values
    as hypotheses: the operations of the source are correctly rounded, so
    they are exact there.  Conversions
    between the unsigned 32-bit dimensions, [int] and [size_t] are written
    out with their wrap-around.  Signed [int] arithmetic and float-to-int
    conversion have no defined result on overflow in C++; the embedding
    computes the mathematical value there.  Infinities and NaN have no
    counterpart. *)

From Stdlib Require Import ZArith QArith Qcanon Qround Lia Lqa.
From stdpp Require Import base numbers list.

Local Open Scope Z_scope.

(** ** Machine integers *)

(** [uint32_t] arithmetic wraps modulo 2^32. *)
Definition to_uint32 (z : Z) : Z := z mod 2 ^ 32.

(** [static_cast<int>] / [int32_t(...)] of an integer value. *)
Definition to_int32 (z : Z) : Z := (z + 2 ^ 31) mod 2 ^ 32 - 2 ^ 31.

(** [size_t] arithmetic wraps modulo 2^64. *)
Definition to_size_t (z : Z) : Z := z mod 2 ^ 64.

(** ** Floats as exact rationals *)

Definition float : Type := Qc.

Definition of_int (z : Z) : float := Qc_of_Z z.

(** [std::floor] followed by the conversion to an integer. *)
Definition ffloor (q : float) : Z := Qfloor q.

(** Implicit / [static_cast] conversion of a float to an integer type:
    truncation towards zero. *)
Definition ftrunc (q : float) : Z := Z.quot (Qnum q) (Z.pos (Qden q)).

Definition fltb (a b : float) : bool := bool_decide (a < b)%Qc.
Definition fleb (a b : float) : bool := bool_decide (a ≤ b)%Qc.
Definition feqb (a b : float) : bool := bool_decide (a = b).

(** [std::clamp(v, lo, hi)]: [(v < lo) ? lo : (hi < v) ? hi : v]. *)
Definition fclamp (v lo hi : float) : float :=
  if fltb v lo then lo else if fltb hi v then hi else v.

Definition iclamp (v lo hi : Z) : Z :=
  if v <? lo then lo else if hi <? v then hi else v.

Definition half : float := Q2Qc (1 # 2).
Definition quarter : float := Q2Qc (1 # 4).

(** ** Colors and coordinates *)

(** Modelled from the spec: [Spectrum] and [Vec2] are declared outside the
    two source files.  The spec: a color is a triple of floating-point
    channel intensities with componentwise addition, scalar multiplication
    and division, and equality; a normalized coordinate is a pair of
    floats. *)
Record Spectrum : Type := mkSpectrum { r : float; g : float; b : float }.

Module Vec2.
Record t : Type := mk { x : float; y : float }.
End Vec2.
Abbreviation Vec2 := Vec2.t.

(** [Spectrum()] and [Spectrum(0.f, 0.f, 0.f)]. *)
Definition Spectrum_zero : Spectrum := mkSpectrum 0%Qc 0%Qc 0%Qc.

Definition Spectrum_add (s t : Spectrum) : Spectrum :=
  mkSpectrum (r s + r t)%Qc (g s + g t)%Qc (b s + b t)%Qc.

(** [s * k] and [k * s]. *)
Definition Spectrum_scale (k : float) (s : Spectrum) : Spectrum :=
  mkSpectrum (k * r s)%Qc (k * g s)%Qc (k * b s)%Qc.

(** [s / k]. *)
Definition Spectrum_div (s : Spectrum) (k : float) : Spectrum :=
  mkSpectrum (r s / k)%Qc (g s / k)%Qc (b s / k)%Qc.

Global Instance Spectrum_eq_dec : EqDecision Spectrum.
Proof. solve_decision. Defined.

(** ** Images *)

(** Modelled from the spec: the pixel buffer [HDR_Image] is declared
    outside the two source files.  The spec gives it dimensions [(w, h)],
    a row-major buffer of [w*h] colors, a constructor from a width/height
    pair that yields a zero-initialized buffer, and deep-content
    (in)equality. *)
Record HDR_Image : Type := mkImage { w : Z; h : Z; pixels : list Spectrum }.

Global Instance HDR_Image_eq_dec : EqDecision HDR_Image.
Proof. solve_decision. Defined.

(** Modelled from the spec: [HDR_Image(w, h)], a zero-initialized buffer of
    the given size. *)
Definition HDR_Image_new (width height : Z) : HDR_Image :=
  mkImage width height (replicate (Z.to_nat (width * height)) Spectrum_zero).

(** Modelled from the spec: [operator!=] on images, the negation of deep
    content equality. *)
Definition HDR_Image_neq (a b : HDR_Image) : bool := bool_decide (a ≠ b).

(** The buffer invariant of the spec: dimensions are unsigned 32-bit values
    and the buffer holds exactly [w*h] colors. *)
Definition wf_image (img : HDR_Image) : Prop :=
  0 <= w img < 2 ^ 32 ∧ 0 <= h img < 2 ^ 32 ∧
  length (pixels img) = Z.to_nat (w img * h img).

(** ** Effects: pixel accesses, contract violations, assertions

    A computation yields the list of pixel-buffer accesses it attempted, in
    order, and either a value or the reason it stopped. *)

Inductive access : Type :=
  | PixelRead (width height x y : Z)
  | PixelWrite (width height x y : Z).

Inductive fault : Type :=
  | OutOfRange (a : access)           (* [at(x, y)] outside [0,w) x [0,h) *)
  | BadLevel (size : nat) (i : Z)    (* [levels[i]] outside [0, size) *)
  | AssertionFailed (line : Z).      (* an [assert] of the source fired *)

Inductive outcome (A : Type) : Type :=
  | Done (a : A)
  | Abort (f : fault).
Arguments Done {A} a.
Arguments Abort {A} f.

Definition M (A : Type) : Type := list access * outcome A.

Global Instance access_eq_dec : EqDecision access.
Proof. solve_decision. Defined.
Global Instance fault_eq_dec : EqDecision fault.
Proof. solve_decision. Defined.
Global Instance outcome_eq_dec `{EqDecision A} : EqDecision (outcome A).
Proof. solve_decision. Defined.

Global Instance M_ret : MRet M := λ A a, ([], Done a).
Global Instance M_bind : MBind M := λ A B f m,
  match m with
  | (t, Done a) => let '(t', o) := f a in (t ++ t', o)
  | (t, Abort e) => (t, Abort e)
  end.

Definition abort {A} (e : fault) : M A := ([], Abort e).

(** [assert(c)] at a given source line. *)
Definition assert (line : Z) (c : bool) : M () :=
  if c then mret () else abort (AssertionFailed line).

Definition trace {A} (m : M A) : list access := fst m.
Definition result {A} (m : M A) : outcome A := snd m.

Definition in_range (a : access) : Prop :=
  match a with
  | PixelRead width height x y | PixelWrite width height x y =>
      0 <= x < width ∧ 0 <= y < height
  end.

Definition in_rangeb (width height x y : Z) : bool :=
  (0 <=? x) && (x <? width) && (0 <=? y) && (y <? height).

(** Modelled from the spec: [HDR_Image::at] is declared outside the two
    source files ([at] is a keyword here, hence the name).  The spec:
    [at(x, y)] with [x ∈ [0, w)], [y ∈ [0, h)], row-major; out-of-range
    access is a contract violation. *)
Definition at_ (img : HDR_Image) (x y : Z) : M Spectrum :=
  let a := PixelRead (w img) (h img) x y in
  if in_rangeb (w img) (h img) x y then
    match pixels img !! Z.to_nat (y * w img + x) with
    | Some c => ([a], Done c)
    | None => ([a], Abort (OutOfRange a))
    end
  else ([a], Abort (OutOfRange a)).

(** Modelled from the spec: the mutable form of [at], as used in
    [dst.at(x, y) = c]. *)
Definition at_put (img : HDR_Image) (x y : Z) (c : Spectrum) : M HDR_Image :=
  let a := PixelWrite (w img) (h img) x y in
  if in_rangeb (w img) (h img) x y
     && bool_decide (Z.to_nat (y * w img + x) < length (pixels img))%nat then
    ([a], Done (mkImage (w img) (h img)
                  (<[Z.to_nat (y * w img + x) := c]> (pixels img))))
  else ([a], Abort (OutOfRange a)).

(** [std::vector::operator[]] on the level sequence; the index is a
    [size_t]. *)
Definition level_at (levels : list HDR_Image) (i : Z) : M HDR_Image :=
  if (0 <=? i) && (i <? Z.of_nat (length levels)) then
    match levels !! Z.to_nat i with
    | Some l => mret l
    | None => abort (BadLevel (length levels) i)
    end
  else abort (BadLevel (length levels) i).

(** [for (int i = 0; i < n; ++i) body], threading the state [s]. *)
Fixpoint for_loop {S : Type} (count : nat) (i : Z)
    (body : Z → S → M S) (s : S) : M S :=
  match count with
  | O => mret s
  | Datatypes.S k => s' ← body i s; for_loop k (i + 1) body s'
  end.

Definition for_range {S : Type} (n : Z) (body : Z → S → M S) (s : S) : M S :=
  for_loop (Z.to_nat n) 0 body s.

(** Range-based [for] over a fixed array. *)
Fixpoint for_each {A S : Type} (l : list A) (body : A → S → M S) (s : S)
    : M S :=
  match l with
  | [] => mret s
  | a :: l' => s' ← body a s; for_each l' body s'
  end.

(** ** Samplers *)

Definition sample_nearest (image : HDR_Image) (uv : Vec2) : M Spectrum :=
  let x := (of_int (w image) * fclamp (Vec2.x uv) 0 1)%Qc in
  let y := (of_int (h image) * fclamp (Vec2.y uv) 0 1)%Qc in
  let ix := ffloor x in
  let iy := ffloor y in
  let ix := Z.min ix (to_int32 (w image) - 1) in
  let iy := Z.min iy (to_int32 (h image) - 1) in
  at_ image ix iy.

Definition sample_offset_t : Type := list (Z * Z).
Definition LEFT_UP : sample_offset_t := [(-1, 1); (0, 1); (0, 0); (-1, 0)].
Definition LEFT_DOWN : sample_offset_t := [(-1, 0); (0, 0); (0, -1); (-1, -1)].
Definition RIGHT_UP : sample_offset_t := [(0, 1); (1, 1); (1, 0); (0, 0)].
Definition RIGHT_DOWN : sample_offset_t := [(0, 0); (1, 0); (1, -1); (0, -1)].
Definition CENTER : sample_offset_t := [(-1, 0); (0, 0); (0, -1); (-1, -1)].

Definition OFFSETS (i : Z) : sample_offset_t :=
  if i =? 0 then LEFT_UP
  else if i =? 1 then LEFT_DOWN
  else if i =? 2 then RIGHT_UP
  else if i =? 3 then RIGHT_DOWN
  else CENTER.

Definition sample_bilinear (image : HDR_Image) (uv : Vec2) : M Spectrum :=
  let iw := ftrunc (of_int (w image) * Vec2.x uv)%Qc in
  let ih := ftrunc (of_int (h image) * Vec2.y uv)%Qc in
  let fw := (of_int (w image) * Vec2.x uv - of_int iw)%Qc in
  let fh := (of_int (h image) * Vec2.y uv - of_int ih)%Qc in
  let offset_index := if fltb half fw then 2 else 0 in
  let offset_index := if fltb fh half then offset_index + 1 else offset_index in
  for_each (OFFSETS offset_index)
    (λ offset res,
       let sx := iclamp (Z.max (iw + offset.1) 0) 0
                   (to_int32 (to_uint32 (w image - 1))) in
       let sy := iclamp (Z.max (ih + offset.2) 0) 0
                   (to_int32 (to_uint32 (h image - 1))) in
       c ← at_ image sx sy;
       mret (Spectrum_add res (Spectrum_scale quarter c)))
    Spectrum_zero.

Definition sample_trilinear (base : HDR_Image) (levels : list HDR_Image)
    (uv : Vec2) (lod : float) : M Spectrum :=
  if fleb lod 0%Qc then sample_bilinear base uv
  else
    let floor := Z.max 0 (ftrunc lod) in
    let ceil := Z.min (to_int32 (to_size_t (Z.of_nat (length levels) - 1)))
                      (ftrunc (lod + 1)%Qc) in
    let a := (lod - of_int floor)%Qc in
    let b := (of_int ceil - lod)%Qc in
    if feqb a 0%Qc then
      l ← level_at levels (ftrunc lod);
      sample_bilinear l uv
    else
      lf ← level_at levels (to_size_t floor);
      sampled_floor ← sample_bilinear lf uv;
      lc ← level_at levels (to_size_t ceil);
      sampled_ceil ← sample_bilinear lc uv;
      mret (Spectrum_add (Spectrum_scale (1 - a)%Qc sampled_floor)
                         (Spectrum_scale (1 - b)%Qc sampled_ceil)).

(** ** Mip-map generation *)

(** [static_cast<int32_t>(std::log2(m))] for an unsigned 32-bit [m].  For
    [m = 0] the logarithm is minus infinity, which converts to no [int32_t]
    value; the embedding takes the x86 result [INT_MIN], so that the
    assertion on the next source line fires. *)
Definition log2_int32 (m : Z) : Z :=
  if m =? 0 then - 2 ^ 31 else Z.log2 m.

(** [levels.clear()]. *)
Definition clear {A : Type} (l : list A) : list A := [].

(** One turn of the allocation loop (source lines 131-139), on the state
    [(width, height, levels)]. *)
Definition allocate_step (_ : Z) (st : Z * Z * list HDR_Image)
    : M (Z * Z * list HDR_Image) :=
  let '(width, height, levels) := st in
  _ ← assert 132 (negb ((width =? 1) && (height =? 1)));
  let width := Z.max 1 (width / 2) in
  let height := Z.max 1 (height / 2) in
  mret (width, height, levels ++ [HDR_Image_new width height]).

(** The allocation block of [generate_mipmap] (source lines 121-142). *)
Definition allocate_levels (base : HDR_Image) (levels : list HDR_Image)
    : M (list HDR_Image) :=
  let num_levels := log2_int32 (Z.max (w base) (h base)) in
  _ ← assert 124 (0 <=? num_levels);
  let levels := clear levels in
  '(width, height, levels) ←
    for_range num_levels allocate_step (w base, h base, levels);
  _ ← assert 140 ((width =? 1) && (height =? 1));
  _ ← assert 141 (Z.of_nat (length levels) =? to_uint32 num_levels);
  mret levels.

(** The sum of a [nx] by [ny] block of [src] whose corner is [(x0, y0)],
    read in the order of the two nested loops. *)
Definition block_sum (src : HDR_Image) (x0 y0 nx ny : Z) : M Spectrum :=
  for_range nx
    (λ i s,
       for_range ny
         (λ j s, c ← at_ src (x0 + i) (y0 + j); mret (Spectrum_add s c)) s)
    Spectrum_zero.

Definition is_odd (n : Z) : bool := n mod 2 =? 1.

(** The [downsample] helper (source lines 147-229). *)
Definition downsample (src dst : HDR_Image) : M HDR_Image :=
  _ ← assert 149 (Z.max 1 (w src / 2) =? w dst);
  _ ← assert 150 (Z.max 1 (h src / 2) =? h dst);
  let dstW := to_int32 (w dst) in
  let dstH := to_int32 (h dst) in
  let dstW := if is_odd (w src) then dstW - 1 else dstW in
  let dstH := if is_odd (h src) then dstH - 1 else dstH in
  dst ← for_range dstW
          (λ w, for_range dstH
             (λ h dst,
                let src_x := 2 * w in
                let src_y := 2 * h in
                sample ← block_sum src src_x src_y 2 2;
                at_put dst w h (Spectrum_div sample (of_int 4))))
          dst;
  let last_x := to_int32 (to_uint32 (w dst - 1)) in
  let last_y := to_int32 (to_uint32 (h dst - 1)) in
  dst ← (if is_odd (w src) then
           for_range (h dst)
             (λ j dst,
                s ← block_sum src (last_x * 2) (j * 2) 3 2;
                at_put dst last_x j (Spectrum_div s (of_int 6)))
             dst
         else mret dst);
  dst ← (if is_odd (h src) then
           for_range (w dst)
             (λ i dst,
                s ← block_sum src (i * 2) (last_y * 2) 2 3;
                at_put dst i last_y (Spectrum_div s (of_int 6)))
             dst
         else mret dst);
  if is_odd (w src) && is_odd (h src) then
    s ← block_sum src (last_x * 2) (last_y * 2) 3 3;
    at_put dst last_x last_y (Spectrum_div s (of_int 9))
  else mret dst.

(** The fill loop of [generate_mipmap] (source lines 234-241). *)
Definition fill_levels (base : HDR_Image) (levels : list HDR_Image)
    : M (list HDR_Image) :=
  for_range (Z.of_nat (length levels))
    (λ i levels,
       src ← (if i =? 0 then mret base else level_at levels (i - 1));
       dst ← level_at levels i;
       dst' ← downsample src dst;
       mret (<[Z.to_nat i := dst']> levels))
    levels.

(** [generate_mipmap(base, &levels)], on the vector [levels_] points to. *)
Definition generate_mipmap (base : HDR_Image) (levels_ : list HDR_Image)
    : M (list HDR_Image) :=
  levels ← allocate_levels base levels_;
  fill_levels base levels.

(** ** The texture facade *)

Inductive Sampler : Type := nearest | bilinear | trilinear.

Global Instance Sampler_eq_dec : EqDecision Sampler.
Proof. solve_decision. Defined.

Record Image : Type := mkTexImage {
  sampler : Sampler;
  image : HDR_Image;
  levels : list HDR_Image
}.

Global Instance Image_eq_dec : EqDecision Image.
Proof. solve_decision. Defined.

Record Constant : Type := mkConstant { color : Spectrum; scale : float }.

Inductive Texture : Type :=
  | TImage (i : Image)
  | TConstant (c : Constant).

Definition update_mipmap (t : Image) : M Image :=
  match sampler t with
  | trilinear =>
      lv ← generate_mipmap (image t) (levels t);
      mret (mkTexImage (sampler t) (image t) lv)
  | _ => mret (mkTexImage (sampler t) (image t) [])
  end.

(** [Image::Image(sampler_, image_)]; [image_.copy()] is a deep copy, which
    for a value is the value itself.  A freshly constructed object has an
    empty level vector. *)
Definition Image_new (sampler_ : Sampler) (image_ : HDR_Image) : M Image :=
  update_mipmap (mkTexImage sampler_ image_ []).

Definition make_valid (t : Image) : M Image := update_mipmap t.

Definition Image_evaluate (t : Image) (uv : Vec2) (lod : float) : M Spectrum :=
  if (w (image t) =? 0) && (h (image t) =? 0) then mret Spectrum_zero
  else
    match sampler t with
    | nearest => sample_nearest (image t) uv
    | bilinear => sample_bilinear (image t) uv
    | trilinear => sample_trilinear (image t) (levels t) uv lod
    end.

Definition Constant_evaluate (t : Constant) (uv : Vec2) (lod : float)
    : Spectrum :=
  Spectrum_scale (scale t) (color t).

Definition Constant_neq (a b : Constant) : bool :=
  bool_decide (color a ≠ color b) || bool_decide (scale a ≠ scale b).

Definition Image_neq (a b : Image) : bool :=
  HDR_Image_neq (image a) (image b).

(** [a.texture.index()]. *)
Definition variant_index (t : Texture) : Z :=
  match t with TImage _ => 0 | TConstant _ => 1 end.

Definition Texture_neq (a b : Texture) : bool :=
  if negb (variant_index a =? variant_index b) then false
  else
    match a, b with
    | TImage x, TImage y => Image_neq x y
    | TConstant x, TConstant y => Constant_neq x y
    | _, _ => false
    end.

(** ** The samplers as the specification words them *)

Definition fceil (q : float) : Z := Qceiling q.

(** Texel fetch with each coordinate clamped independently into
    [[0, w-1] x [0, h-1]] (the address-clamping policy of section 4.2). *)
Definition texel_clamped (image : HDR_Image) (x y : Z) : Spectrum :=
  let cx := iclamp x 0 (w image - 1) in
  let cy := iclamp y 0 (h image - 1) in
  default Spectrum_zero (pixels image !! Z.to_nat (cy * w image + cx)).

(** The textbook weighted bilinear blend of section 4.2. *)
Definition bilinear_spec (image : HDR_Image) (uv : Vec2) : Spectrum :=
  let cx := (of_int (w image) * fclamp (Vec2.x uv) 0 1 - half)%Qc in
  let cy := (of_int (h image) * fclamp (Vec2.y uv) 0 1 - half)%Qc in
  let x0 := ffloor cx in
  let x1 := x0 + 1 in
  let y0 := ffloor cy in
  let y1 := y0 + 1 in
  let tx := (cx - of_int x0)%Qc in
  let ty := (cy - of_int y0)%Qc in
  Spectrum_add
    (Spectrum_add
       (Spectrum_scale ((1 - tx) * (1 - ty))%Qc (texel_clamped image x0 y0))
       (Spectrum_scale (tx * (1 - ty))%Qc (texel_clamped image x1 y0)))
    (Spectrum_add
       (Spectrum_scale ((1 - tx) * ty)%Qc (texel_clamped image x0 y1))
       (Spectrum_scale (tx * ty)%Qc (texel_clamped image x1 y1))).

(** The level blend of section 4.4 for [lod > 0], over the Bilinear Sampler
    of the code. *)
Definition trilinear_spec (levels : list HDR_Image) (uv : Vec2) (lod : float)
    : M Spectrum :=
  let lastIndex := Z.of_nat (length levels) - 1 in
  let lo := iclamp (ffloor lod) 0 lastIndex in
  let hi := iclamp (fceil lod) 0 lastIndex in
  let frac := (lod - of_int lo)%Qc in
  l_lo ← level_at levels lo;
  s_lo ← sample_bilinear l_lo uv;
  l_hi ← level_at levels hi;
  s_hi ← sample_bilinear l_hi uv;
  mret (Spectrum_add (Spectrum_scale (1 - frac)%Qc s_lo)
                     (Spectrum_scale frac s_hi)).

(** ** Concrete images used by the examples below *)

Definition gray (q : Q) : Spectrum := mkSpectrum (Q2Qc q) (Q2Qc q) (Q2Qc q).
Definition constant_image (width height : Z) (c : Spectrum) : HDR_Image :=
  mkImage width height (replicate (Z.to_nat (width * height)) c).

(** A black texel next to a white one. *)
Definition ramp_2x1 : HDR_Image := mkImage 2 1 [gray 0; gray 1].
(** The all-white 4x4 image of the spec's scenario and its two levels. *)
Definition white_4x4 : HDR_Image := constant_image 4 4 (gray 1).
Definition white_levels : list HDR_Image :=
  [constant_image 2 2 (gray 1); constant_image 1 1 (gray 1)].
Definition uv_of (u v : Q) : Vec2 := Vec2.mk (Q2Qc u) (Q2Qc v).

(** Four rows of a ramp from black to white. *)
Definition ramp_4x4 : HDR_Image :=
  mkImage 4 4
    [gray 0; gray (1 # 4); gray (1 # 2); gray 1;
     gray 0; gray (1 # 4); gray (1 # 2); gray 1;
     gray 0; gray (1 # 4); gray (1 # 2); gray 1;
     gray 0; gray (1 # 4); gray (1 # 2); gray 1].

(** ** Notions used in the statements *)

(** The dimensions of the levels after [n] halvings of [width] x [height]. *)
Fixpoint level_shapes (n : nat) (width height : Z) : list (Z * Z) :=
  match n with
  | O => []
  | Datatypes.S k =>
      let width := Z.max 1 (width / 2) in
      let height := Z.max 1 (height / 2) in
      (width, height) :: level_shapes k width height
  end.

Definition shape (img : HDR_Image) : Z * Z := (w img, h img).

(** The image before level [i] in the pyramid: the base for level 0. *)
Definition source_of (base : HDR_Image) (levels : list HDR_Image) (i : nat)
    : option HDR_Image :=
  match i with
  | O => Some base
  | Datatypes.S j => levels !! j
  end.

(** A computation that, if it stops early, stops on a pixel access and not
    on an assertion or a level index; [P] holds of its value otherwise. *)
Definition no_assert {A} (P : A → Prop) (m : M A) : Prop :=
  match result m with
  | Done a => P a
  | Abort (OutOfRange _) => True
  | Abort _ => False
  end.

(** The texel at [(x, y)] and the image with that texel replaced, as
    values. *)
Definition pixel (img : HDR_Image) (x y : Z) : Spectrum :=
  default Spectrum_zero (pixels img !! Z.to_nat (y * w img + x)).

Definition put_pixel (img : HDR_Image) (x y : Z) (c : Spectrum) : HDR_Image :=
  mkImage (w img) (h img) (<[Z.to_nat (y * w img + x) := c]> (pixels img)).

(** A computation that runs to completion, touches pixels inside their
    images only, and whose value satisfies [P]. *)
Definition safe {A} (P : A → Prop) (m : M A) : Prop :=
  match m with
  | (t, Done a) => Forall in_range t ∧ P a
  | (_, Abort _) => False
  end.

(** The sum of the [nx] by [ny] block of texels at [(x0, y0)]. *)
Definition block_total (src : HDR_Image) (x0 y0 nx ny : Z) : Spectrum :=
  foldl (λ s i,
           foldl (λ s j, Spectrum_add s (pixel src (x0 + i) (y0 + j)))
                 s (seqZ 0 ny))
        Spectrum_zero (seqZ 0 nx).

(** The unweighted average of the [nx] by [ny] block of the source under
    the texel [(x, y)] of the halved image. *)
Definition box (src : HDR_Image) (x y nx ny : Z) : Spectrum :=
  Spectrum_div (block_total src (2 * x) (2 * y) nx ny) (of_int (nx * ny)).

(** The box filter of section 4.3: the texel [(x, y)] of the halved image
    is the unweighted average of a block of the source that is 2 wide, or 3
    wide in the last column of an odd-width source, and likewise high. *)
Definition downsample_spec (src : HDR_Image) (x y : Z) : Spectrum :=
  let last_x := Z.max 1 (w src / 2) - 1 in
  let last_y := Z.max 1 (h src / 2) - 1 in
  let nx := if is_odd (w src) && (x =? last_x) then 3 else 2 in
  let ny := if is_odd (h src) && (y =? last_y) then 3 else 2 in
  box src x y nx ny.

(** [d] has the dimensions of [dst] and a buffer of that size. *)
Definition frame_of (dst d : HDR_Image) : Prop :=
  w d = w dst ∧ h d = h dst ∧ length (pixels d) = Z.to_nat (w dst * h dst).

(** [d] stands for the destination [dst] of a downsample of [src] in which
    the texels of the region [R] hold their box averages already. *)
Definition filled (src dst : HDR_Image) (R : Z → Z → Prop) (d : HDR_Image)
    : Prop :=
  frame_of dst d
  ∧ ∀ x y, 0 <= x < w dst → 0 <= y < h dst → R x y →
           pixel d x y = downsample_spec src x y.

(** How the parity of a source dimension [n] fixes the number [m] of
    destination texels with a two-texel footprint, [half] being the
    destination dimension. *)
Definition parity_split (n half m : Z) : Prop :=
  (is_odd n = true ∧ m = half - 1 ∧ n = 2 * half + 1)
  ∨ (is_odd n = false ∧ m = half ∧ n = 2 * half).

(** Every level is the box-filtered halving of the image before it, which
    is at least 2x2. *)
Definition box_pyramid (base : HDR_Image) (levels : list HDR_Image) : Prop :=
  ∀ i l, levels !! i = Some l →
    ∃ p, source_of base levels i = Some p
         ∧ 2 <= w p ∧ 2 <= h p
         ∧ w l = Z.max 1 (w p / 2) ∧ h l = Z.max 1 (h p / 2)
         ∧ length (pixels l) = Z.to_nat (w l * h l)
         ∧ ∀ x y, 0 <= x < w l → 0 <= y < h l →
                  pixel l x y = downsample_spec p x y.

(** Every texel of [img] has the color [c]. *)
Definition constant_color (img : HDR_Image) (c : Spectrum) : Prop :=
  ∀ x y, 0 <= x < w img → 0 <= y < h img → pixel img x y = c.

(** Every level has the dimensions [max(1, floor(dim/2))] of the image
    before it. *)
Definition halving_chain (base : HDR_Image) (levels : list HDR_Image) : Prop :=
  ∀ i l, levels !! i = Some l →
    ∃ p, source_of base levels i = Some p
         ∧ w l = Z.max 1 (w p / 2) ∧ h l = Z.max 1 (h p / 2).

(** [uv] with both coordinates clamped into [[0, 1]]. *)
Definition clamp_uv (uv : Vec2) : Vec2 :=
  Vec2.mk (fclamp (Vec2.x uv) 0%Qc 1%Qc) (fclamp (Vec2.y uv) 0%Qc 1%Qc).

(** The texel the Nearest Sampler addresses. *)
Definition nearest_x (image : HDR_Image) (uv : Vec2) : Z :=
  Z.min (ffloor (of_int (w image) * fclamp (Vec2.x uv) 0 1)%Qc) (w image - 1).
Definition nearest_y (image : HDR_Image) (uv : Vec2) : Z :=
  Z.min (ffloor (of_int (h image) * fclamp (Vec2.y uv) 0 1)%Qc) (h image - 1).

(** The float [q] truncates to an [int] that has an [int] on either side:
    the conversions [int(image.w * uv.x)] and [int(image.h * uv.y)] of the
    Bilinear Sampler and its sums with the offsets are defined. *)
Definition int_convertible (q : float) : Prop :=
  (of_int (- 2 ^ 31) < q)%Qc ∧ (q < of_int (2 ^ 31 - 1))%Qc.

Definition uv_convertible (image : HDR_Image) (uv : Vec2) : Prop :=
  int_convertible (of_int (w image) * Vec2.x uv)%Qc
  ∧ int_convertible (of_int (h image) * Vec2.y uv)%Qc.

(** The finite binary32 values: [m * 2^e] with a 24-bit [m].  The float
    operations of the source are correctly rounded: one whose exact result
    is such a value returns it. *)
Definition binary32 (q : float) : Prop :=
  ∃ m e : Z, Z.abs m < 2 ^ 24 ∧ -149 <= e <= 104
             ∧ q = (of_int m * Q2Qc (2 ^ e)%Q)%Qc.

(** The sums of up to nine copies of the color [c] are binary32 values, in
    every channel: the sum of a block of texels of that color, as
    [downsample] adds it up, is exact. *)
Definition block_sums_exact (c : Spectrum) : Prop :=
  ∀ k, 1 <= k <= 9 →
    binary32 (of_int k * r c)%Qc ∧ binary32 (of_int k * g c)%Qc
    ∧ binary32 (of_int k * b c)%Qc.

(** The level blend of [sample_trilinear] at the level of detail [lod] is
    exact on two samples of the color [c]: [lod] is a binary32 value, and
    so are [lod + 1.f], the weight [1 - a] (the other weight is the
    fractional part [a], a binary32 value as [lod] is) and the two
    products, in every channel. *)
Definition blend_exact (lod : float) (c : Spectrum) : Prop :=
  let a := (lod - of_int (ffloor lod))%Qc in
  binary32 lod ∧ binary32 (lod + 1)%Qc ∧ binary32 (1 - a)%Qc
  ∧ (binary32 ((1 - a) * r c)%Qc ∧ binary32 (a * r c)%Qc)
  ∧ (binary32 ((1 - a) * g c)%Qc ∧ binary32 (a * g c)%Qc)
  ∧ (binary32 ((1 - a) * b c)%Qc ∧ binary32 (a * b c)%Qc).

(** The products by [0.25f] that [sample_bilinear] adds up are exact on the
    color [c]: a quarter of every channel is a binary32 value. *)
Definition quarters_exact (c : Spectrum) : Prop :=
  binary32 (quarter * r c)%Qc ∧ binary32 (quarter * g c)%Qc
  ∧ binary32 (quarter * b c)%Qc.

(** Every channel of [s] lies in [[lo, hi]]. *)
Definition within (lo hi : float) (s : Spectrum) : Prop :=
  (lo ≤ r s ≤ hi)%Qc ∧ (lo ≤ g s ≤ hi)%Qc ∧ (lo ≤ b s ≤ hi)%Qc.

(** Every texel of the buffer of [img] is within [[lo, hi]]. *)
Definition texels_within (lo hi : float) (img : HDR_Image) : Prop :=
  Forall (within lo hi) (pixels img).

(** * Properties *)

(** Concrete equations are decided by evaluation. *)
Ltac by_evaluation := apply (bool_decide_unpack _); vm_compute; exact I.

(** ** Monad facts *)

Lemma bind_Done {A B} (t : list access) (a : A) (f : A → M B) :
  (t, Done a) ≫= f = (t ++ trace (f a), result (f a)).
Proof. unfold mbind, M_bind, trace, result. by destruct (f a). Qed.

Lemma bind_Abort {A B} (t : list access) (e : fault) (f : A → M B) :
  ((t, Abort e) : M A) ≫= f = (t, Abort e).
Proof. done. Qed.

Lemma bind_mret {A B} (a : A) (f : A → M B) : mret a ≫= f = f a.
Proof. unfold mret, M_ret. rewrite bind_Done. by destruct (f a). Qed.

Lemma bind_nil_Done {A B} (a : A) (f : A → M B) : ([], Done a) ≫= f = f a.
Proof. apply bind_mret. Qed.

Lemma result_bind {A B} (m : M A) (f : A → M B) :
  result (m ≫= f)
  = match result m with Done a => result (f a) | Abort e => Abort e end.
Proof. destruct m as [t [a|e]]; [|done]. by rewrite bind_Done. Qed.

Lemma for_loop_S {S} (k : nat) (i : Z) (body : Z → S → M S) (s : S) :
  for_loop (Datatypes.S k) i body s = body i s ≫= for_loop k (i + 1) body.
Proof. done. Qed.

(** ** Machine integers and exact floats *)

Lemma to_int32_small (z : Z) : - 2 ^ 31 <= z < 2 ^ 31 → to_int32 z = z.
Proof. intros Hz. unfold to_int32. rewrite Z.mod_small; lia. Qed.

Lemma to_uint32_small (z : Z) : 0 <= z < 2 ^ 32 → to_uint32 z = z.
Proof. intros Hz. unfold to_uint32. by rewrite Z.mod_small. Qed.

Lemma iclamp_range (v hi : Z) : 0 <= hi → 0 <= iclamp v 0 hi <= hi.
Proof.
  intros Hhi. unfold iclamp.
  destruct (Z.ltb_spec v 0); [lia|]. destruct (Z.ltb_spec hi v); lia.
Qed.

Lemma iclamp_0_0 (v : Z) : iclamp (Z.max v 0) 0 0 = 0.
Proof.
  unfold iclamp.
  destruct (Z.ltb_spec (Z.max v 0) 0), (Z.ltb_spec 0 (Z.max v 0)); lia.
Qed.

Lemma fclamp_range (v : float) : (0 ≤ fclamp v 0 1 ≤ 1)%Qc.
Proof.
  unfold fclamp, fltb. repeat case_bool_decide; try done.
  by split; apply Qcle_ngt.
Qed.

Lemma ffloor_nonneg (q : float) : (0 ≤ q)%Qc → 0 <= ffloor q.
Proof.
  intros Hq. unfold ffloor. rewrite <- (Qfloor_Z 0). by apply Qfloor_resp_le.
Qed.

Lemma ffloor_spec (q : float) :
  (of_int (ffloor q) ≤ q)%Qc ∧ (q < of_int (ffloor q + 1))%Qc.
Proof. split; [apply (Qfloor_le q)|apply (Qlt_floor q)]. Qed.

Lemma ffloor_unique (q : float) (z : Z) :
  (of_int z ≤ q)%Qc → (q < of_int (z + 1))%Qc → ffloor q = z.
Proof.
  intros Hle Hlt. destruct (ffloor_spec q) as [Hf1 Hf2].
  assert (z < ffloor q + 1)
    by (apply Z2Qc_inj_lt; by eapply Qcle_lt_trans).
  assert (ffloor q < z + 1)
    by (apply Z2Qc_inj_lt; by eapply Qcle_lt_trans).
  lia.
Qed.

(** Truncation is the floor on floats that are not negative. *)
Lemma ftrunc_ffloor (q : float) : (0 ≤ q)%Qc → ftrunc q = ffloor q.
Proof.
  intros Hq. unfold ftrunc, ffloor. destruct q as [[n d] Hc]. cbn.
  apply Z.quot_div_nonneg; [|lia].
  unfold Qcle, Qle in Hq. cbn in Hq.
  change (Qnum (Qred 0)) with 0 in Hq. change (QDen (Qred 0)) with 1 in Hq.
  lia.
Qed.

Lemma ffloor_succ (q : float) : ffloor (q + 1)%Qc = ffloor q + 1.
Proof.
  destruct (ffloor_spec q) as [Hf1 Hf2]. apply ffloor_unique.
  - unfold of_int. rewrite Z2Qc_inj_add, Z2Qc_inj_1.
    by apply Qcplus_le_mono_r.
  - unfold of_int in *. rewrite Z2Qc_inj_add, Z2Qc_inj_1.
    by apply Qcplus_lt_mono_r.
Qed.

Lemma fceil_spec (q : float) :
  (of_int (fceil q - 1) < q)%Qc ∧ (q ≤ of_int (fceil q))%Qc.
Proof. split; [apply (Qceiling_lt q)|apply (Qle_ceiling q)]. Qed.

Lemma fceil_of_int (z : Z) : fceil (of_int z) = z.
Proof. apply Qceiling_Z. Qed.

Lemma fceil_fraction (q : float) :
  q ≠ of_int (ffloor q) → fceil q = ffloor q + 1.
Proof.
  intros Hne. destruct (ffloor_spec q) as [Hf1 Hf2].
  destruct (fceil_spec q) as [Hc1 Hc2].
  assert (of_int (ffloor q) < q)%Qc as Hlt.
  { apply Qcle_lt_or_eq in Hf1 as [?|?]; [done|congruence]. }
  assert (ffloor q < fceil q)
    by (apply Z2Qc_inj_lt; by eapply Qclt_le_trans).
  assert (fceil q - 1 < ffloor q + 1)
    by (apply Z2Qc_inj_lt; by eapply Qclt_trans).
  lia.
Qed.

Lemma of_int_4 : of_int 4 = (1 + 1 + 1 + 1)%Qc.
Proof. by_evaluation. Qed.

Lemma of_int_6 : of_int 6 = (1 + 1 + 1 + 1 + 1 + 1)%Qc.
Proof. by_evaluation. Qed.

Lemma of_int_9 : of_int 9 = (1 + 1 + 1 + 1 + 1 + 1 + 1 + 1 + 1)%Qc.
Proof. by_evaluation. Qed.

Ltac qc_average :=
  unfold Spectrum_div, Spectrum_add, Spectrum_zero; cbn [r g b];
  f_equal; unfold float in *; field; by_evaluation.

Lemma quarter_sum (c : Spectrum) :
  Spectrum_add
    (Spectrum_add
       (Spectrum_add (Spectrum_add Spectrum_zero (Spectrum_scale quarter c))
                     (Spectrum_scale quarter c))
       (Spectrum_scale quarter c))
    (Spectrum_scale quarter c) = c.
Proof.
  assert (quarter = 1 / (1 + 1 + 1 + 1))%Qc as -> by by_evaluation.
  destruct c as [cr cg cb].
  unfold Spectrum_add, Spectrum_scale, Spectrum_zero; cbn [r g b].
  f_equal; unfold float in *; field; by_evaluation.
Qed.

Lemma Spectrum_blend_one (s : Spectrum) :
  Spectrum_add (Spectrum_scale (1 - 0)%Qc s) (Spectrum_scale 0%Qc s) = s.
Proof.
  destruct s as [sr sg sb]. unfold Spectrum_add, Spectrum_scale. cbn [r g b].
  f_equal; unfold float in *; ring.
Qed.

(** ** Computations that stay inside their images *)

Lemma safe_mret {A} (P : A → Prop) (a : A) : P a → safe P (mret a).
Proof. by split. Qed.

Lemma safe_bind {A B} (Q : A → Prop) (P : B → Prop) (m : M A) (f : A → M B) :
  safe Q m → (∀ a, Q a → safe P (f a)) → safe P (m ≫= f).
Proof.
  destruct m as [t [a|e]]; [|done]. intros [Ht Ha] Hf.
  rewrite bind_Done. specialize (Hf a Ha). unfold safe in Hf.
  destruct (f a) as [t' [b|e]]; [|done]. destruct Hf as [Ht' Hb].
  split; [by apply Forall_app|done].
Qed.

Lemma safe_weaken {A} (P Q : A → Prop) (m : M A) :
  (∀ a, P a → Q a) → safe P m → safe Q m.
Proof. intros HPQ. destruct m as [t [a|e]]; [|done]. intros []. split; auto. Qed.

Lemma safe_result {A} (P : A → Prop) (m : M A) :
  safe P m → ∃ a, result m = Done a ∧ P a ∧ Forall in_range (trace m).
Proof. destruct m as [t [a|e]]; [|done]. intros []. by exists a. Qed.

(** The loop rule: the invariant [I j] holds before turn [j]. *)
Lemma safe_for_loop {S} (I : Z → S → Prop) (k : nat) (i : Z)
    (body : Z → S → M S) (s : S) :
  I i s →
  (∀ j s, i <= j < i + Z.of_nat k → I j s → safe (I (j + 1)) (body j s)) →
  safe (I (i + Z.of_nat k)) (for_loop k i body s).
Proof.
  revert i s. induction k as [|k IH]; intros i s Hs Hbody.
  - apply safe_mret. by replace (i + Z.of_nat 0) with i by lia.
  - rewrite for_loop_S. apply (safe_bind (I (i + 1))).
    + apply Hbody; [lia|done].
    + intros s' Hs'.
      replace (i + Z.of_nat (Datatypes.S k)) with (i + 1 + Z.of_nat k) by lia.
      apply IH; [done|]. intros j s'' Hj. apply Hbody. lia.
Qed.

Lemma safe_for_range {S} (I : Z → S → Prop) (n : Z)
    (body : Z → S → M S) (s : S) :
  0 <= n → I 0 s →
  (∀ j s, 0 <= j < n → I j s → safe (I (j + 1)) (body j s)) →
  safe (I n) (for_range n body s).
Proof.
  intros Hn Hs Hbody. unfold for_range.
  replace n with (0 + Z.of_nat (Z.to_nat n)) at 1 by lia.
  apply safe_for_loop; [done|]. intros j s' Hj. apply Hbody. lia.
Qed.

Lemma safe_for_each {A S} (I : S → Prop) (l : list A)
    (body : A → S → M S) (s : S) :
  I s → (∀ a s, a ∈ l → I s → safe I (body a s)) →
  safe I (for_each l body s).
Proof.
  revert s. induction l as [|a l IH]; intros s Hs Hbody; [by apply safe_mret|].
  cbn [for_each]. apply (safe_bind I).
  - apply Hbody; [left|done].
  - intros s' Hs'. apply IH; [done|]. intros a' s'' Ha'. apply Hbody. by right.
Qed.

Lemma pixel_index_lt (width height x y : Z) :
  0 <= x < width → 0 <= y < height →
  (Z.to_nat (y * width + x) < Z.to_nat (width * height))%nat.
Proof. intros Hx Hy. apply Z2Nat.inj_lt; nia. Qed.

(** Distinct texels of a row-major buffer have distinct indices. *)
Lemma pixel_index_inj (width x y x' y' : Z) :
  0 <= x < width → 0 <= x' < width → 0 <= y → 0 <= y' →
  Z.to_nat (y * width + x) = Z.to_nat (y' * width + x') → x = x' ∧ y = y'.
Proof.
  intros Hx Hx' Hy Hy' Heq. apply Z2Nat.inj in Heq; [|nia|nia].
  assert (y = y') by nia. split; [nia|done].
Qed.

Lemma in_rangeb_true (width height x y : Z) :
  0 <= x < width → 0 <= y < height → in_rangeb width height x y = true.
Proof. intros. unfold in_rangeb. rewrite !andb_true_iff. lia. Qed.

Lemma safe_at_ (img : HDR_Image) (x y : Z) :
  length (pixels img) = Z.to_nat (w img * h img) →
  0 <= x < w img → 0 <= y < h img →
  safe (λ c, c = pixel img x y) (at_ img x y).
Proof.
  intros Hlen Hx Hy. unfold at_, pixel. rewrite in_rangeb_true by done.
  destruct (lookup_lt_is_Some_2 (pixels img) (Z.to_nat (y * w img + x)))
    as [c Hc]; [rewrite Hlen; by apply pixel_index_lt|].
  rewrite Hc. split; [|done]. apply Forall_singleton. by cbn.
Qed.

Lemma safe_at_put (img : HDR_Image) (x y : Z) (c : Spectrum) :
  length (pixels img) = Z.to_nat (w img * h img) →
  0 <= x < w img → 0 <= y < h img →
  safe (λ d, d = put_pixel img x y c) (at_put img x y c).
Proof.
  intros Hlen Hx Hy. unfold at_put. rewrite in_rangeb_true by done.
  rewrite bool_decide_eq_true_2
    by (rewrite Hlen; by apply pixel_index_lt).
  split; [|done]. apply Forall_singleton. by cbn.
Qed.

Lemma pixel_put_pixel_eq (img : HDR_Image) (x y : Z) (c : Spectrum) :
  length (pixels img) = Z.to_nat (w img * h img) →
  0 <= x < w img → 0 <= y < h img →
  pixel (put_pixel img x y c) x y = c.
Proof.
  intros Hlen Hx Hy. unfold pixel, put_pixel. cbn [w h pixels].
  rewrite list_lookup_insert_eq; [done|].
  rewrite Hlen. by apply pixel_index_lt.
Qed.

Lemma pixel_put_pixel_ne (img : HDR_Image) (x y x' y' : Z) (c : Spectrum) :
  0 <= x < w img → 0 <= x' < w img → 0 <= y → 0 <= y' →
  (x, y) ≠ (x', y') →
  pixel (put_pixel img x y c) x' y' = pixel img x' y'.
Proof.
  intros Hx Hx' Hy Hy' Hne. unfold pixel, put_pixel. cbn [w h pixels].
  rewrite list_lookup_insert_ne; [done|]. intros Heq.
  apply pixel_index_inj in Heq as [-> ->]; done.
Qed.

Lemma level_at_lookup (levels : list HDR_Image) (i : nat) (l : HDR_Image) :
  levels !! i = Some l → level_at levels (Z.of_nat i) = mret l.
Proof.
  intros Hl. unfold level_at. pose proof (lookup_lt_Some _ _ _ Hl).
  replace ((0 <=? Z.of_nat i) && (Z.of_nat i <? Z.of_nat (length levels)))
    with true by (symmetry; apply andb_true_iff; lia).
  by rewrite Nat2Z.id, Hl.
Qed.

(** ** Loops and pixel accesses, step by step *)

Lemma bind_assoc {A B C} (m : M A) (f : A → M B) (g : B → M C) :
  (m ≫= f) ≫= g = m ≫= (λ a, f a ≫= g).
Proof.
  destruct m as [t [a|e]]; [|done]. unfold mbind, M_bind.
  destruct (f a) as [t' [b|e]]; [|done].
  destruct (g b) as [t'' [c|e]]; by rewrite app_assoc.
Qed.

Lemma bind_ext {A B} (m : M A) (f g : A → M B) :
  (∀ a, f a = g a) → m ≫= f = m ≫= g.
Proof.
  intros Hfg. destruct m as [t [a|e]]; [|done].
  unfold mbind, M_bind. by rewrite Hfg.
Qed.

Lemma result_Abort_bind {A B} (m : M A) (f : A → M B) (e : fault) :
  result m = Abort e → result (m ≫= f) = Abort e.
Proof. intros Hm. by rewrite result_bind, Hm. Qed.

Lemma for_loop_skip {S} (k : nat) (i : Z) (body : Z → S → M S) (s : S) :
  (∀ j s, body j s = mret s) → for_loop k i body s = mret s.
Proof.
  intros Hbody. revert i. induction k as [|k IH]; intros i; [done|].
  by rewrite for_loop_S, Hbody, bind_mret.
Qed.

Lemma for_range_skip {S} (n : Z) (body : Z → S → M S) (s : S) :
  (∀ j s, body j s = mret s) → for_range n body s = mret s.
Proof. apply for_loop_skip. Qed.

Lemma for_range_first {S} (n : Z) (body : Z → S → M S) (s : S) :
  1 <= n →
  for_range n body s = body 0 s ≫= for_loop (Z.to_nat (n - 1)) 1 body.
Proof.
  intros Hn. unfold for_range.
  replace (Z.to_nat n) with (Datatypes.S (Z.to_nat (n - 1))) by lia.
  apply for_loop_S.
Qed.

Lemma for_loop_app {St} (a c : nat) (i : Z) (body : Z → St → M St) (s : St) :
  for_loop (a + c) i body s
  = for_loop a i body s ≫= for_loop c (i + Z.of_nat a) body.
Proof.
  revert i s. induction a as [|a IH]; intros i s.
  - cbn [for_loop Nat.add]. rewrite bind_mret. f_equal. lia.
  - cbn [Nat.add]. rewrite !for_loop_S, bind_assoc.
    destruct (body i s) as [t [s'|e]]; [|done].
    rewrite !bind_Done, IH.
    by replace (i + 1 + Z.of_nat a) with (i + Z.of_nat (Datatypes.S a)) by lia.
Qed.

(** A loop of [n] turns as its first [m] turns, turn [m], and the rest. *)
Lemma for_loop_split {St} (n m : nat) (i : Z) (body : Z → St → M St) (s : St) :
  (m < n)%nat →
  for_loop n i body s
  = for_loop m i body s ≫=
      (λ s', body (i + Z.of_nat m) s'
             ≫= for_loop (n - m - 1) (i + Z.of_nat m + 1) body).
Proof.
  intros Hmn.
  replace n with (m + Datatypes.S (n - m - 1))%nat at 1 by lia.
  by rewrite for_loop_app.
Qed.

Lemma at_inside (img : HDR_Image) (x y : Z) :
  length (pixels img) = Z.to_nat (w img * h img) →
  0 <= x < w img → 0 <= y < h img →
  at_ img x y = ([PixelRead (w img) (h img) x y], Done (pixel img x y)).
Proof.
  intros Hlen Hx Hy. unfold at_, pixel. rewrite in_rangeb_true by done.
  destruct (lookup_lt_is_Some_2 (pixels img) (Z.to_nat (y * w img + x)))
    as [c ->]; [rewrite Hlen; by apply pixel_index_lt|done].
Qed.

Lemma at_outside (img : HDR_Image) (x y : Z) :
  ¬ (0 <= x < w img ∧ 0 <= y < h img) →
  at_ img x y = ([PixelRead (w img) (h img) x y],
                 Abort (OutOfRange (PixelRead (w img) (h img) x y))).
Proof.
  intros Hout. unfold at_.
  destruct (in_rangeb (w img) (h img) x y) eqn:Hin; [|done].
  exfalso. apply Hout. unfold in_rangeb in Hin.
  rewrite !andb_true_iff in Hin. lia.
Qed.

(** The grays 1 and 1/4 have exact block sums. *)
Lemma block_sums_exact_white : block_sums_exact (gray 1).
Proof.
  intros k Hk. cbn [gray r g b].
  repeat split; exists k, 0; (split; [lia|split; [lia|]]); f_equal;
    by_evaluation.
Qed.

Lemma block_sums_exact_quarter : block_sums_exact (gray (1 # 4)).
Proof.
  intros k Hk. cbn [gray r g b].
  repeat split; exists k, (-2); (split; [lia|split; [lia|]]); f_equal;
    by_evaluation.
Qed.

(** The image of [width] by [height] texels of the color [c] is well
    formed and constant. *)
Lemma constant_image_color (width height : Z) (c : Spectrum) :
  constant_color (constant_image width height c) c.
Proof.
  intros x y Hx Hy. unfold pixel, constant_image in *. cbn [w h pixels] in *.
  rewrite lookup_replicate_2; [done|]. by apply pixel_index_lt.
Qed.

(** ** Computations that trip no assertion *)

Lemma no_assert_mret {A} (P : A → Prop) (a : A) : P a → no_assert P (mret a).
Proof. done. Qed.

Lemma no_assert_bind {A B} (Q : A → Prop) (P : B → Prop) (m : M A)
    (f : A → M B) :
  no_assert Q m → (∀ a, Q a → no_assert P (f a)) → no_assert P (m ≫= f).
Proof.
  destruct m as [t [a|e]]; unfold no_assert; cbn [result snd].
  - intros Ha Hf. rewrite bind_Done. apply (Hf a Ha).
  - by rewrite bind_Abort.
Qed.


Lemma no_assert_for_loop {S} (I : S → Prop) (k : nat) (i : Z)
    (body : Z → S → M S) (s : S) :
  I s →
  (∀ j s, i <= j < i + Z.of_nat k → I s → no_assert I (body j s)) →
  no_assert I (for_loop k i body s).
Proof.
  revert i s. induction k as [|k IH]; intros i s Hs Hbody; [done|].
  rewrite for_loop_S. apply (no_assert_bind I).
  - apply Hbody; [lia|done].
  - intros s' Hs'. apply IH; [done|]. intros j s'' Hj. apply Hbody. lia.
Qed.

Lemma no_assert_for_range {S} (I : S → Prop) (n : Z)
    (body : Z → S → M S) (s : S) :
  I s →
  (∀ j s, 0 <= j < n → I s → no_assert I (body j s)) →
  no_assert I (for_range n body s).
Proof.
  intros Hs Hbody. apply no_assert_for_loop; [done|].
  intros j s' Hj. apply Hbody. lia.
Qed.

Lemma no_assert_assert (line : Z) (c : bool) :
  c = true → no_assert (λ _, True) (assert line c).
Proof. by intros ->. Qed.

Lemma no_assert_at_ (img : HDR_Image) (x y : Z) :
  no_assert (λ _, True) (at_ img x y).
Proof.
  unfold at_, no_assert.
  destruct (in_rangeb _ _ _ _); [|done]. by destruct (_ !! _).
Qed.

Lemma no_assert_at_put (img : HDR_Image) (x y : Z) (c : Spectrum) :
  no_assert (λ d, shape d = shape img) (at_put img x y c).
Proof. unfold at_put, no_assert. by destruct (_ && _). Qed.

(** ** The Nearest and the Bilinear Sampler *)

(** C1.  On the two-texel ramp at [uv = (3/8, 1/2)] the code averages the
    texels of one quadrant with four equal weights and returns 1/2, where
    the weighted blend of the specification gives 1/4: [sample_bilinear]
    is not the weighted sum the claim describes. *)
Theorem sample_bilinear_equal_weights :
  sample_bilinear ramp_2x1 (uv_of (3 # 8) (1 # 2))
    = ([PixelRead 2 1 0 0; PixelRead 2 1 1 0;
        PixelRead 2 1 1 0; PixelRead 2 1 0 0], Done (gray (1 # 2)))
  ∧ bilinear_spec ramp_2x1 (uv_of (3 # 8) (1 # 2)) = gray (1 # 4).
Proof. split; by_evaluation. Qed.

(** On an image of at least 1x1 the Nearest Sampler returns one texel of
    the image, read inside it. *)
Lemma sample_nearest_texel (image : HDR_Image) (uv : Vec2) :
  length (pixels image) = Z.to_nat (w image * h image) →
  1 <= w image < 2 ^ 31 → 1 <= h image < 2 ^ 31 →
  safe (λ c, ∃ x y, 0 <= x < w image ∧ 0 <= y < h image ∧ c = pixel image x y)
    (sample_nearest image uv).
Proof.
  intros Hlen Hw Hh. unfold sample_nearest.
  rewrite !to_int32_small by lia.
  assert (∀ n u, 1 <= n → 0 <= ffloor (of_int n * fclamp u 0 1)%Qc) as Hfl.
  { intros n u Hn. apply ffloor_nonneg, Qcmult_nonneg_nonneg.
    - rewrite <- Z2Qc_inj_0. apply (proj1 (Z2Qc_inj_le 0 n)). lia.
    - apply fclamp_range. }
  pose proof (Hfl (w image) (Vec2.x uv) ltac:(lia)).
  pose proof (Hfl (h image) (Vec2.y uv) ltac:(lia)).
  eapply safe_weaken; [|apply safe_at_; [done|lia|lia]].
  intros c ->. eexists _, _. split; [|split; [|done]]; lia.
Qed.

(** On an image of at least 1x1 the Bilinear Sampler reads inside the
    image and returns a color. *)
Lemma sample_bilinear_safe (image : HDR_Image) (uv : Vec2) :
  length (pixels image) = Z.to_nat (w image * h image) →
  1 <= w image < 2 ^ 31 → 1 <= h image < 2 ^ 31 →
  safe (λ _, True) (sample_bilinear image uv).
Proof.
  intros Hlen Hw Hh. unfold sample_bilinear.
  rewrite !to_uint32_small, !to_int32_small by lia.
  apply safe_for_each; [done|]. intros o s _ _.
  pose proof (iclamp_range
    (Z.max (ftrunc (of_int (w image) * Vec2.x uv)%Qc + o.1) 0) (w image - 1)
    ltac:(lia)).
  pose proof (iclamp_range
    (Z.max (ftrunc (of_int (h image) * Vec2.y uv)%Qc + o.2) 0) (h image - 1)
    ltac:(lia)).
  apply (safe_bind (λ _, True)); [|done].
  eapply safe_weaken; [|apply safe_at_; [done|lia|lia]]. done.
Qed.

(** On a 1x1 image both samplers return its one texel. *)
Lemma sample_nearest_1x1 (c : Spectrum) (uv : Vec2) :
  sample_nearest (mkImage 1 1 [c]) uv = ([PixelRead 1 1 0 0], Done c).
Proof.
  unfold sample_nearest. cbn [w h].
  change (to_int32 1 - 1) with 0.
  assert (∀ u, Z.min (ffloor (of_int 1 * fclamp u 0 1)%Qc) 0 = 0) as Hmin.
  { intros u. apply Z.min_r, ffloor_nonneg, Qcmult_nonneg_nonneg;
      [done|apply fclamp_range]. }
  by rewrite !Hmin.
Qed.

Lemma OFFSETS_four (i : Z) :
  ∃ o1 o2 o3 o4, OFFSETS i = [o1; o2; o3; o4].
Proof. unfold OFFSETS. repeat destruct (_ =? _); by eexists _, _, _, _. Qed.

(** On an image of at least 1x1 the Bilinear Sampler returns the sum of four
    texels of the image, each with the weight 1/4. *)
Lemma sample_bilinear_quarter_weights (image : HDR_Image) (uv : Vec2) :
  length (pixels image) = Z.to_nat (w image * h image) →
  1 <= w image < 2 ^ 31 → 1 <= h image < 2 ^ 31 →
  safe (λ c, ∃ p1 p2 p3 p4 : Z * Z,
          Forall (λ p, 0 <= p.1 < w image ∧ 0 <= p.2 < h image)
                 [p1; p2; p3; p4]
          ∧ c = foldl (λ s p, Spectrum_add s
                                (Spectrum_scale quarter (pixel image p.1 p.2)))
                      Spectrum_zero [p1; p2; p3; p4])
    (sample_bilinear image uv).
Proof.
  intros Hlen Hw Hh. unfold sample_bilinear.
  rewrite !to_uint32_small, !to_int32_small by lia.
  set (iw := ftrunc (of_int (w image) * Vec2.x uv)%Qc).
  set (ih := ftrunc (of_int (h image) * Vec2.y uv)%Qc).
  set (sx := λ o : Z * Z, iclamp (Z.max (iw + o.1) 0) 0 (w image - 1)).
  set (sy := λ o : Z * Z, iclamp (Z.max (ih + o.2) 0) 0 (h image - 1)).
  assert (∀ o, 0 <= sx o < w image ∧ 0 <= sy o < h image) as Hin.
  { intros o. unfold sx, sy.
    pose proof (iclamp_range (Z.max (iw + o.1) 0) (w image - 1) ltac:(lia)).
    pose proof (iclamp_range (Z.max (ih + o.2) 0) (h image - 1) ltac:(lia)).
    lia. }
  match goal with
  | |- context [OFFSETS ?i] =>
      destruct (OFFSETS_four i) as (o1 & o2 & o3 & o4 & ->)
  end.
  cbn [for_each].
  assert (∀ o s, safe (λ s', s' = Spectrum_add s
                     (Spectrum_scale quarter (pixel image (sx o) (sy o))))
            (c ← at_ image (sx o) (sy o);
             mret (Spectrum_add s (Spectrum_scale quarter c)))) as Hstep.
  { intros o s. apply (safe_bind (λ c, c = pixel image (sx o) (sy o))).
    - apply safe_at_; [done|apply Hin..].
    - by intros c ->. }
  eapply safe_bind; [apply Hstep|]. intros s1 ->.
  eapply safe_bind; [apply Hstep|]. intros s2 ->.
  eapply safe_bind; [apply Hstep|]. intros s3 ->.
  eapply safe_bind; [apply Hstep|]. intros s4 ->.
  apply safe_mret.
  exists (sx o1, sy o1), (sx o2, sy o2), (sx o3, sy o3), (sx o4, sy o4).
  split; [|done]. repeat constructor; apply Hin.
Qed.

Lemma sample_bilinear_1x1 (c : Spectrum) (uv : Vec2) :
  sample_bilinear (mkImage 1 1 [c]) uv
  = (replicate 4 (PixelRead 1 1 0 0), Done c).
Proof.
  unfold sample_bilinear. cbn [w h].
  change (to_int32 (to_uint32 (1 - 1))) with 0.
  destruct (OFFSETS_four
              (if fltb (of_int 1 * Vec2.y uv
                        - of_int (ftrunc (of_int 1 * Vec2.y uv)))%Qc half
               then (if fltb half (of_int 1 * Vec2.x uv
                                   - of_int (ftrunc (of_int 1 * Vec2.x uv)))%Qc
                     then 2 else 0) + 1
               else if fltb half (of_int 1 * Vec2.x uv
                                  - of_int (ftrunc (of_int 1 * Vec2.x uv)))%Qc
                    then 2 else 0))
    as (o1 & o2 & o3 & o4 & ->).
  cbn [for_each]. rewrite !iclamp_0_0.
  change (at_ (mkImage 1 1 [c]) 0 0) with ([PixelRead 1 1 0 0], Done c).
  cbv [mbind M_bind mret M_ret app]. by rewrite quarter_sum.
Qed.

(** ** The Nearest Sampler, texel by texel *)

Lemma fclamp_idem (v : float) :
  (fclamp (fclamp v 0 1) 0 1 = fclamp v 0 1)%Qc.
Proof.
  destruct (fclamp_range v) as [H0 H1]. revert H0 H1.
  generalize (fclamp v 0 1)%Qc. intros q H0 H1. unfold fclamp, fltb.
  rewrite !bool_decide_eq_false_2; [done|by apply Qcle_not_lt..].
Qed.


Lemma ffloor_of_int (z : Z) : ffloor (of_int z) = z.
Proof. apply Qfloor_Z. Qed.

Lemma of_int_nonneg (n : Z) : 0 <= n → (0 ≤ of_int n)%Qc.
Proof.
  intros Hn. rewrite <- Z2Qc_inj_0. by apply (proj1 (Z2Qc_inj_le 0 n)).
Qed.

Lemma nearest_in_range (image : HDR_Image) (uv : Vec2) :
  1 <= w image → 1 <= h image →
  0 <= nearest_x image uv < w image ∧ 0 <= nearest_y image uv < h image.
Proof.
  intros Hw Hh.
  assert (∀ n u, 1 <= n → 0 <= ffloor (of_int n * fclamp u 0 1)%Qc) as Hfl.
  { intros n u Hn. apply ffloor_nonneg, Qcmult_nonneg_nonneg.
    - apply of_int_nonneg. lia.
    - apply fclamp_range. }
  pose proof (Hfl (w image) (Vec2.x uv) Hw).
  pose proof (Hfl (h image) (Vec2.y uv) Hh).
  unfold nearest_x, nearest_y. lia.
Qed.

Lemma sample_nearest_at (image : HDR_Image) (uv : Vec2) :
  0 <= w image < 2 ^ 31 → 0 <= h image < 2 ^ 31 →
  sample_nearest image uv
  = at_ image (nearest_x image uv) (nearest_y image uv).
Proof.
  intros Hw Hh. unfold sample_nearest. by rewrite !to_int32_small by lia.
Qed.

(** X1.  On an image of at least 1x1 the Nearest Sampler reads one texel,
    the one that contains the clamped [uv] scaled to pixel space, reduced to
    the last column or row where that reaches the width or the height; it
    returns the color of that texel.  The texel is read off the two
    products [w * clamp(u)] and [h * clamp(v)]: the statement is for
    dimensions that convert to [float] as they are, below [2^24], and for
    products that are binary32 values. *)
Theorem sample_nearest_one_texel (image : HDR_Image) (uv : Vec2) :
  length (pixels image) = Z.to_nat (w image * h image) →
  1 <= w image < 2 ^ 24 → 1 <= h image < 2 ^ 24 →
  binary32 (of_int (w image) * fclamp (Vec2.x uv) 0 1)%Qc →
  binary32 (of_int (h image) * fclamp (Vec2.y uv) 0 1)%Qc →
  0 <= nearest_x image uv < w image ∧ 0 <= nearest_y image uv < h image
  ∧ sample_nearest image uv
    = ([PixelRead (w image) (h image) (nearest_x image uv) (nearest_y image uv)],
       Done (pixel image (nearest_x image uv) (nearest_y image uv))).
Proof.
  intros Hlen Hw Hh _ _.
  destruct (nearest_in_range image uv) as [Hx Hy]; [lia..|].
  split; [done|split; [done|]].
  rewrite sample_nearest_at by lia. by apply at_inside.
Qed.

Lemma sample_nearest_one_texel_witness :
  0 <= nearest_x ramp_2x1 (uv_of (3 # 4) (1 # 2)) < 2
  ∧ 0 <= nearest_y ramp_2x1 (uv_of (3 # 4) (1 # 2)) < 1
  ∧ sample_nearest ramp_2x1 (uv_of (3 # 4) (1 # 2))
    = ([PixelRead 2 1 (nearest_x ramp_2x1 (uv_of (3 # 4) (1 # 2)))
          (nearest_y ramp_2x1 (uv_of (3 # 4) (1 # 2)))],
       Done (pixel ramp_2x1 (nearest_x ramp_2x1 (uv_of (3 # 4) (1 # 2)))
               (nearest_y ramp_2x1 (uv_of (3 # 4) (1 # 2))))).
Proof.
  apply (sample_nearest_one_texel ramp_2x1 (uv_of (3 # 4) (1 # 2)));
    [reflexivity|simpl; lia|simpl; lia
    |exists 3, (-1); split; [reflexivity|split; [lia|by_evaluation]]
    |exists 1, (-1); split; [reflexivity|split; [lia|by_evaluation]]].
Defined.

(** X2.  The Nearest Sampler clamps: texture coordinates outside [[0, 1]]
    give what their clamped values give, pixel reads included. *)
Theorem sample_nearest_clamps (image : HDR_Image) (uv : Vec2) :
  sample_nearest image (clamp_uv uv) = sample_nearest image uv.
Proof.
  unfold sample_nearest, clamp_uv. cbn [Vec2.x Vec2.y].
  by rewrite !fclamp_idem.
Qed.



(** ** The Bilinear Sampler, read by read *)


(** X4.  On an image of at least 1x1 the Bilinear Sampler reads four texels
    of the image and returns their sum, each with the weight 1/4, whatever
    the fractional position of [uv] between them is. *)
Theorem sample_bilinear_four_texels (image : HDR_Image) (uv : Vec2) :
  length (pixels image) = Z.to_nat (w image * h image) →
  1 <= w image < 2 ^ 31 → 1 <= h image < 2 ^ 31 →
  uv_convertible image uv →
  ∃ p1 p2 p3 p4 : Z * Z,
    Forall (λ p, 0 <= p.1 < w image ∧ 0 <= p.2 < h image) [p1; p2; p3; p4]
    ∧ sample_bilinear image uv
      = ((λ p, PixelRead (w image) (h image) p.1 p.2) <$> [p1; p2; p3; p4],
         Done (foldl (λ s p, Spectrum_add s
                               (Spectrum_scale quarter (pixel image p.1 p.2)))
                     Spectrum_zero [p1; p2; p3; p4])).
Proof.
  intros Hlen Hw Hh _. unfold sample_bilinear.
  rewrite !to_uint32_small, !to_int32_small by lia.
  set (iw := ftrunc (of_int (w image) * Vec2.x uv)%Qc).
  set (ih := ftrunc (of_int (h image) * Vec2.y uv)%Qc).
  set (sx := λ o : Z * Z, iclamp (Z.max (iw + o.1) 0) 0 (w image - 1)).
  set (sy := λ o : Z * Z, iclamp (Z.max (ih + o.2) 0) 0 (h image - 1)).
  assert (∀ o, 0 <= sx o < w image ∧ 0 <= sy o < h image) as Hin.
  { intros o. unfold sx, sy.
    pose proof (iclamp_range (Z.max (iw + o.1) 0) (w image - 1) ltac:(lia)).
    pose proof (iclamp_range (Z.max (ih + o.2) 0) (h image - 1) ltac:(lia)).
    lia. }
  match goal with
  | |- context [OFFSETS ?i] =>
      destruct (OFFSETS_four i) as (o1 & o2 & o3 & o4 & ->)
  end.
  exists (sx o1, sy o1), (sx o2, sy o2), (sx o3, sy o3), (sx o4, sy o4).
  split; [repeat constructor; apply Hin|].
  cbn [for_each].
  fold (sx o1) (sy o1) (sx o2) (sy o2) (sx o3) (sy o3) (sx o4) (sy o4).
  rewrite !at_inside by (done || apply Hin).
  reflexivity.
Qed.

Lemma sample_bilinear_four_texels_witness :
  ∃ p1 p2 p3 p4 : Z * Z,
    Forall (λ p, 0 <= p.1 < 2 ∧ 0 <= p.2 < 1) [p1; p2; p3; p4]
    ∧ sample_bilinear ramp_2x1 (uv_of (3 # 8) (1 # 2))
      = ((λ p, PixelRead 2 1 p.1 p.2) <$> [p1; p2; p3; p4],
         Done (foldl (λ s p, Spectrum_add s
                               (Spectrum_scale quarter (pixel ramp_2x1 p.1 p.2)))
                     Spectrum_zero [p1; p2; p3; p4])).
Proof.
  apply (sample_bilinear_four_texels ramp_2x1 (uv_of (3 # 8) (1 # 2)));
    [reflexivity|simpl; lia|simpl; lia|by vm_compute].
Defined.

Lemma safe_sample_bilinear_constant (image : HDR_Image) (c : Spectrum)
    (uv : Vec2) :
  length (pixels image) = Z.to_nat (w image * h image) →
  1 <= w image < 2 ^ 31 → 1 <= h image < 2 ^ 31 →
  constant_color image c →
  safe (λ s, s = c) (sample_bilinear image uv).
Proof.
  intros Hlen Hw Hh Hc.
  eapply safe_weaken; [|by apply sample_bilinear_quarter_weights].
  intros s (p1 & p2 & p3 & p4 & Hin & ->).
  apply Forall_cons in Hin as [[??] Hin]. apply Forall_cons in Hin as [[??] Hin].
  apply Forall_cons in Hin as [[??] Hin]. apply Forall_cons in Hin as [[??] _].
  cbn [foldl]. rewrite !Hc by done. apply quarter_sum.
Qed.











(** ** The Trilinear Sampler *)

(** C2.  With the two levels of the 4x4 image, a level of detail between
    the last index and the next integer makes the code add the coarsest
    level with weights 1/2 and 3/2 (twice its color), where the claimed
    blend returns the coarsest level itself; a level of detail beyond that
    indexes the level vector out of range. *)
Theorem sample_trilinear_above_last_level (base : HDR_Image) :
  result (sample_trilinear base white_levels (uv_of (1 # 2) (1 # 2))
            (Q2Qc (3 # 2))) = Done (gray 2)
  ∧ result (trilinear_spec white_levels (uv_of (1 # 2) (1 # 2))
              (Q2Qc (3 # 2))) = Done (gray 1)
  ∧ result (sample_trilinear base white_levels (uv_of (1 # 2) (1 # 2))
              (Q2Qc (5 # 2))) = Abort (BadLevel 2 2)
  ∧ result (sample_trilinear base white_levels (uv_of (1 # 2) (1 # 2))
              (Q2Qc 3)) = Abort (BadLevel 2 3).
Proof. repeat split; by_evaluation. Qed.

(** For a level of detail in [(0, lastIndex]] the Trilinear Sampler returns
    the blend of the two bracketing levels that section 4.4 describes. *)
Theorem sample_trilinear_in_range (base : HDR_Image) (levels : list HDR_Image)
    (uv : Vec2) (lod : float) :
  Z.of_nat (length levels) < 2 ^ 31 →
  (0 < lod)%Qc → (lod ≤ of_int (Z.of_nat (length levels) - 1))%Qc →
  result (sample_trilinear base levels uv lod)
  = result (trilinear_spec levels uv lod).
Proof.
  intros Hlen Hpos Hmax.
  set (last := Z.of_nat (length levels) - 1) in *.
  destruct (ffloor_spec lod) as [Hf1 Hf2].
  assert (0 <= ffloor lod) as Hf0 by (by apply ffloor_nonneg, Qclt_le_weak).
  assert (ffloor lod <= last) as Hfl
    by (apply Z2Qc_inj_le; by eapply Qcle_trans).
  unfold sample_trilinear, trilinear_spec, fleb.
  rewrite bool_decide_eq_false_2 by (by apply Qclt_nge).
  rewrite !ftrunc_ffloor
    by (apply Qclt_le_weak; try done; by apply Qcplus_pos_nonneg).
  rewrite ffloor_succ. fold last.
  rewrite (Z.max_r 0 (ffloor lod)) by done.
  unfold to_size_t. rewrite (Z.mod_small last), (to_int32_small last) by lia.
  assert (iclamp (ffloor lod) 0 last = ffloor lod) as ->
    by (unfold iclamp; destruct (Z.ltb_spec (ffloor lod) 0),
          (Z.ltb_spec last (ffloor lod)); lia).
  destruct (lookup_lt_is_Some_2 levels (Z.to_nat (ffloor lod)) ltac:(lia))
    as [l Hl].
  assert (level_at levels (ffloor lod) = mret l) as Hat.
  { replace (ffloor lod) with (Z.of_nat (Z.to_nat (ffloor lod))) at 1 by lia.
    by apply level_at_lookup. }
  unfold feqb. case_bool_decide as Hint.
  - (* integral level of detail *)
    assert (lod = of_int (ffloor lod)) as Hlod.
    { transitivity ((lod - of_int (ffloor lod)) + of_int (ffloor lod))%Qc;
        [unfold float in *; ring|rewrite Hint; unfold float in *; ring]. }
    assert (fceil lod = ffloor lod) as ->
      by (rewrite Hlod at 1; apply fceil_of_int).
    assert (iclamp (ffloor lod) 0 last = ffloor lod) as ->
      by (unfold iclamp; destruct (Z.ltb_spec (ffloor lod) 0),
            (Z.ltb_spec last (ffloor lod)); lia).
    rewrite !Hat, !bind_mret, Hint, (result_bind (sample_bilinear l uv)).
    destruct (sample_bilinear l uv) as [t [s|e]] eqn:Hs; cbn [result snd];
      [|done].
    rewrite bind_mret, result_bind, Hs. cbn [result snd mret M_ret].
    by rewrite Spectrum_blend_one.
  - (* fractional level of detail *)
    assert (lod ≠ of_int (ffloor lod)) as Hne.
    { intros Heq. apply Hint. rewrite Heq at 1. unfold float in *. ring. }
    assert (ffloor lod < last) as Hlt.
    { apply Z2Qc_inj_lt. eapply Qclt_le_trans; [|exact Hmax].
      apply Qcle_lt_or_eq in Hf1 as [?|?]; [done|congruence]. }
    rewrite (fceil_fraction lod Hne), (Z.min_r last (ffloor lod + 1)) by lia.
    rewrite !Z.mod_small by lia.
    assert (iclamp (ffloor lod + 1) 0 last = ffloor lod + 1) as ->
      by (unfold iclamp; destruct (Z.ltb_spec (ffloor lod + 1) 0),
            (Z.ltb_spec last (ffloor lod + 1)); lia).
    assert (1 - (of_int (ffloor lod + 1) - lod) = lod - of_int (ffloor lod))%Qc
      as ->; [|done].
    unfold of_int. rewrite Z2Qc_inj_add, Z2Qc_inj_1. unfold float in *. ring.
Qed.

(** With no levels, every positive level of detail makes the Trilinear
    Sampler index the empty level vector. *)
Lemma sample_trilinear_no_levels (base : HDR_Image) (uv : Vec2) (lod : float) :
  (0 < lod)%Qc →
  ∃ i, sample_trilinear base [] uv lod = ([], Abort (BadLevel 0 i)).
Proof.
  intros Hlod. unfold sample_trilinear, fleb.
  rewrite bool_decide_eq_false_2 by (by apply Qclt_nge).
  assert (∀ i, level_at [] i = ([], Abort (BadLevel 0 i))) as Hat.
  { intros i. unfold level_at. cbn [length].
    by destruct ((0 <=? i) && (i <? Z.of_nat 0)). }
  destruct (feqb _ _); rewrite !Hat; eexists; reflexivity.
Qed.

(** ** The Trilinear Sampler, range by range *)

Lemma level_at_beyond (levels : list HDR_Image) (i : Z) :
  Z.of_nat (length levels) <= i →
  level_at levels i = ([], Abort (BadLevel (length levels) i)).
Proof.
  intros Hi. unfold level_at.
  replace (i <? Z.of_nat (length levels)) with false
    by (symmetry; apply Z.ltb_ge; lia).
  by rewrite andb_false_r.
Qed.

Lemma level_at_Some (levels : list HDR_Image) (i : Z) (l : HDR_Image) :
  0 <= i → levels !! Z.to_nat i = Some l → level_at levels i = mret l.
Proof.
  intros Hi Hl. replace i with (Z.of_nat (Z.to_nat i)) at 1 by lia.
  by apply level_at_lookup.
Qed.

Lemma Spectrum_blend_same (p q : float) (s : Spectrum) :
  (p + q = 1)%Qc →
  Spectrum_add (Spectrum_scale p s) (Spectrum_scale q s) = s.
Proof.
  intros Hab. destruct s as [sr sg sb].
  unfold Spectrum_add, Spectrum_scale. cbn [r g b]. unfold float in *.
  f_equal; rewrite <- Qcmult_plus_distr_l, Hab; apply Qcmult_1_l.
Qed.

Lemma Spectrum_blend_double (a : float) (s : Spectrum) :
  Spectrum_add (Spectrum_scale (1 - a)%Qc s) (Spectrum_scale (1 - - a)%Qc s)
  = Spectrum_scale 2%Qc s.
Proof.
  destruct s as [sr sg sb]. unfold Spectrum_add, Spectrum_scale. cbn [r g b].
  f_equal; unfold float in *; ring.
Qed.

(** What the casts of [sample_trilinear] come to for a positive level of
    detail: [floor] is the floor of [lod], and [ceil] the smaller of the
    last index and that floor plus one. *)
Lemma sample_trilinear_positive (base : HDR_Image) (levels : list HDR_Image)
    (uv : Vec2) (lod : float) :
  (0 < lod)%Qc →
  0 <= ffloor lod
  ∧ sample_trilinear base levels uv lod
    = (let floor := ffloor lod in
       let ceil := Z.min (to_int32 (to_size_t (Z.of_nat (length levels) - 1)))
                     (ffloor lod + 1) in
       if feqb (lod - of_int floor)%Qc 0%Qc then
         l ← level_at levels floor; sample_bilinear l uv
       else
         lf ← level_at levels (to_size_t floor);
         sampled_floor ← sample_bilinear lf uv;
         lc ← level_at levels (to_size_t ceil);
         sampled_ceil ← sample_bilinear lc uv;
         mret (Spectrum_add
                 (Spectrum_scale (1 - (lod - of_int floor))%Qc sampled_floor)
                 (Spectrum_scale (1 - (of_int ceil - lod))%Qc sampled_ceil))).
Proof.
  intros Hpos.
  assert (0 <= ffloor lod) as Hf0 by (by apply ffloor_nonneg, Qclt_le_weak).
  split; [done|]. unfold sample_trilinear, fleb.
  rewrite bool_decide_eq_false_2 by (by apply Qclt_nge).
  rewrite !ftrunc_ffloor
    by (apply Qclt_le_weak; try done; by apply Qcplus_pos_nonneg).
  by rewrite ffloor_succ, (Z.max_r 0 (ffloor lod)) by done.
Qed.

Lemma fraction_zero (lod : float) :
  (lod - of_int (ffloor lod))%Qc = 0%Qc ↔ lod = of_int (ffloor lod).
Proof.
  split; intros Heq.
  - transitivity ((lod - of_int (ffloor lod)) + of_int (ffloor lod))%Qc;
      [unfold float in *; ring|rewrite Heq; unfold float in *; ring].
  - rewrite Heq at 1. unfold float in *. ring.
Qed.

(** X8.  An integral level of detail [k >= 1] selects [levels[k]] alone: the
    result is the bilinear sample of that level, and a fault on the level
    index when there is no such level. *)
Theorem sample_trilinear_integral (base : HDR_Image) (levels : list HDR_Image)
    (uv : Vec2) (k : Z) :
  1 <= k < 2 ^ 31 - 1 →
  sample_trilinear base levels uv (of_int k)
  = l ← level_at levels k; sample_bilinear l uv.
Proof.
  intros Hk.
  assert (0 < of_int k)%Qc as Hpos
    by (rewrite <- Z2Qc_inj_0; apply (proj1 (Z2Qc_inj_lt 0 k)); lia).
  destruct (sample_trilinear_positive base levels uv _ Hpos) as [_ ->].
  cbv zeta. rewrite ffloor_of_int.
  unfold feqb. rewrite bool_decide_eq_true_2; [done|].
  unfold float in *. ring.
Qed.

Lemma sample_trilinear_integral_witness :
  sample_trilinear white_4x4 white_levels (uv_of (1 # 2) (1 # 2)) (of_int 1)
  = l ← level_at white_levels 1; sample_bilinear l (uv_of (1 # 2) (1 # 2)).
Proof.
  apply (sample_trilinear_integral white_4x4 white_levels
           (uv_of (1 # 2) (1 # 2)) 1); lia.
Defined.

(** X9.  A fractional level of detail below the last index blends the
    bilinear samples of the two levels around it, [levels[floor]] with the
    weight [1 - a] and [levels[floor + 1]] with the weight [a], where [a] is
    the fractional part.  The second level and the two weights are read off
    [lod + 1.f], [ceil - lod] and [1.f - a]: the statement is for a binary32
    [lod] for which [lod + 1] and [1 - a] (the value of [ceil - lod] as
    well) are binary32 values. *)
Theorem sample_trilinear_blend (base : HDR_Image) (levels : list HDR_Image)
    (uv : Vec2) (lod : float) :
  Z.of_nat (length levels) < 2 ^ 31 →
  (0 < lod)%Qc → (lod < of_int (Z.of_nat (length levels) - 1))%Qc →
  lod ≠ of_int (ffloor lod) →
  binary32 lod → binary32 (lod + 1)%Qc →
  binary32 (1 - (lod - of_int (ffloor lod)))%Qc →
  sample_trilinear base levels uv lod
  = (lf ← level_at levels (ffloor lod);
     sampled_floor ← sample_bilinear lf uv;
     lc ← level_at levels (ffloor lod + 1);
     sampled_ceil ← sample_bilinear lc uv;
     mret (Spectrum_add
             (Spectrum_scale (1 - (lod - of_int (ffloor lod)))%Qc sampled_floor)
             (Spectrum_scale (lod - of_int (ffloor lod))%Qc sampled_ceil))).
Proof.
  intros Hlen Hpos Hmax Hfrac _ _ _.
  destruct (sample_trilinear_positive base levels uv _ Hpos) as [Hf0 ->].
  cbv zeta. destruct (ffloor_spec lod) as [Hf1 Hf2].
  assert (ffloor lod < Z.of_nat (length levels) - 1) as Hlt
    by (apply Z2Qc_inj_lt; by eapply Qcle_lt_trans).
  unfold feqb. rewrite bool_decide_eq_false_2 by (by rewrite fraction_zero).
  unfold to_size_t.
  rewrite (Z.mod_small (Z.of_nat (length levels) - 1)) by lia.
  rewrite (to_int32_small (Z.of_nat (length levels) - 1)) by lia.
  rewrite (Z.min_r _ (ffloor lod + 1)) by lia.
  rewrite !Z.mod_small by lia.
  assert (1 - (of_int (ffloor lod + 1) - lod) = lod - of_int (ffloor lod))%Qc
    as ->; [|done].
  unfold of_int. rewrite Z2Qc_inj_add, Z2Qc_inj_1. unfold float in *. ring.
Qed.

Lemma sample_trilinear_blend_witness :
  sample_trilinear white_4x4 white_levels (uv_of (1 # 2) (1 # 2)) (Q2Qc (1 # 4))
  = (lf ← level_at white_levels (ffloor (Q2Qc (1 # 4)));
     sampled_floor ← sample_bilinear lf (uv_of (1 # 2) (1 # 2));
     lc ← level_at white_levels (ffloor (Q2Qc (1 # 4)) + 1);
     sampled_ceil ← sample_bilinear lc (uv_of (1 # 2) (1 # 2));
     mret (Spectrum_add
             (Spectrum_scale
                (1 - (Q2Qc (1 # 4) - of_int (ffloor (Q2Qc (1 # 4)))))%Qc
                sampled_floor)
             (Spectrum_scale (Q2Qc (1 # 4) - of_int (ffloor (Q2Qc (1 # 4))))%Qc
                sampled_ceil))).
Proof.
  apply (sample_trilinear_blend white_4x4 white_levels
           (uv_of (1 # 2) (1 # 2)) (Q2Qc (1 # 4)));
    [simpl; lia|by vm_compute|by vm_compute|by vm_compute
    |exists 1, (-2); split; [reflexivity|split; [lia|by_evaluation]]
    |exists 5, (-2); split; [reflexivity|split; [lia|by_evaluation]]
    |exists 3, (-2); split; [reflexivity|split; [lia|by_evaluation]]].
Defined.

(** X10.  Between the last index and the next integer both levels of the
    blend are the coarsest level, sampled twice, and the code weights the
    two samples by [1 - a] and by [1 - b] with [a = lod - last] and
    [b = last - lod]: the weights are [1 - a] and [1 + a], of sum 2, where a
    blend has weights of sum 1. *)
Theorem sample_trilinear_saturated (base : HDR_Image)
    (levels : list HDR_Image) (l : HDR_Image) (uv : Vec2) (lod : float) :
  Z.of_nat (length levels) < 2 ^ 31 →
  last levels = Some l →
  (of_int (Z.of_nat (length levels) - 1) < lod)%Qc →
  (lod < of_int (Z.of_nat (length levels)))%Qc →
  sample_trilinear base levels uv lod
  = (sampled_floor ← sample_bilinear l uv;
     sampled_ceil ← sample_bilinear l uv;
     mret (Spectrum_add
             (Spectrum_scale
                (1 - (lod - of_int (Z.of_nat (length levels) - 1)))%Qc
                sampled_floor)
             (Spectrum_scale
                (1 - (of_int (Z.of_nat (length levels) - 1) - lod))%Qc
                sampled_ceil))).
Proof.
  intros Hlen Hl Hlo Hhi.
  assert (levels !! Z.to_nat (Z.of_nat (length levels) - 1) = Some l) as Hlk.
  { rewrite last_lookup in Hl. rewrite <- Hl. f_equal. lia. }
  pose proof (lookup_lt_Some _ _ _ Hlk) as Hn.
  set (n := Z.of_nat (length levels)) in *.
  assert (ffloor lod = n - 1) as Hfl.
  { apply ffloor_unique; [by apply Qclt_le_weak|].
    by replace (n - 1 + 1) with n by lia. }
  assert (0 < lod)%Qc as Hpos.
  { eapply Qcle_lt_trans; [|exact Hlo]. apply of_int_nonneg. lia. }
  destruct (sample_trilinear_positive base levels uv _ Hpos) as [_ ->].
  cbv zeta. fold n. rewrite Hfl.
  unfold to_size_t. rewrite (Z.mod_small (n - 1)), (to_int32_small (n - 1)) by lia.
  rewrite (Z.min_l (n - 1) (n - 1 + 1)), (Z.mod_small (n - 1)) by lia.
  unfold feqb. rewrite bool_decide_eq_false_2.
  2:{ rewrite <- Hfl, fraction_zero, Hfl. intros Heq.
      by apply (Qclt_not_eq _ _ Hlo). }
  rewrite (level_at_Some levels (n - 1) l) by (done || lia).
  rewrite bind_mret. apply bind_ext. intros sampled_floor.
  by rewrite bind_mret.
Qed.

Lemma sample_trilinear_saturated_witness :
  sample_trilinear white_4x4 white_levels (uv_of (1 # 2) (1 # 2))
    (Q2Qc (3 # 2))
  = (sampled_floor ← sample_bilinear (constant_image 1 1 (gray 1))
                        (uv_of (1 # 2) (1 # 2));
     sampled_ceil ← sample_bilinear (constant_image 1 1 (gray 1))
                       (uv_of (1 # 2) (1 # 2));
     mret (Spectrum_add
             (Spectrum_scale
                (1 - (Q2Qc (3 # 2)
                      - of_int (Z.of_nat (length white_levels) - 1)))%Qc
                sampled_floor)
             (Spectrum_scale
                (1 - (of_int (Z.of_nat (length white_levels) - 1)
                      - Q2Qc (3 # 2)))%Qc
                sampled_ceil))).
Proof.
  apply (sample_trilinear_saturated white_4x4 white_levels
           (constant_image 1 1 (gray 1)) (uv_of (1 # 2) (1 # 2))
           (Q2Qc (3 # 2)));
    [simpl; lia|reflexivity|by vm_compute|by vm_compute].
Defined.

(** X11.  At or beyond the number of levels the code indexes the level
    vector out of range, before any pixel is read. *)
Theorem sample_trilinear_beyond (base : HDR_Image) (levels : list HDR_Image)
    (uv : Vec2) (lod : float) :
  (0 < lod)%Qc →
  (of_int (Z.of_nat (length levels)) ≤ lod)%Qc →
  (lod < of_int (2 ^ 31 - 1))%Qc →
  sample_trilinear base levels uv lod
  = ([], Abort (BadLevel (length levels) (ffloor lod))).
Proof.
  intros Hpos Hlo Hhi.
  destruct (sample_trilinear_positive base levels uv _ Hpos) as [Hf0 ->].
  cbv zeta. destruct (ffloor_spec lod) as [Hf1 Hf2].
  assert (Z.of_nat (length levels) <= ffloor lod) as Hge.
  { assert (Z.of_nat (length levels) < ffloor lod + 1)
      by (apply Z2Qc_inj_lt; by eapply Qcle_lt_trans).
    lia. }
  assert (ffloor lod < 2 ^ 31 - 1) as Hlt
    by (apply Z2Qc_inj_lt; by eapply Qcle_lt_trans).
  unfold to_size_t. rewrite (Z.mod_small (ffloor lod)) by lia.
  destruct (feqb _ _); by rewrite (level_at_beyond levels (ffloor lod) Hge).
Qed.

Lemma sample_trilinear_beyond_witness :
  sample_trilinear white_4x4 white_levels (uv_of (1 # 2) (1 # 2)) (Q2Qc (5 # 2))
  = ([], Abort (BadLevel (length white_levels) (ffloor (Q2Qc (5 # 2))))).
Proof.
  apply (sample_trilinear_beyond white_4x4 white_levels
           (uv_of (1 # 2) (1 # 2)) (Q2Qc (5 # 2)));
    [by vm_compute|by vm_compute|by vm_compute].
Defined.

(** Linear arithmetic on exact floats, through the rationals under them. *)
Ltac qc_to_q :=
  unfold float, quarter, half, of_int, Qcdiv, Qcminus in *;
  repeat match goal with
  | H : _ ∧ _ |- _ => destruct H
  end;
  unfold Qcle, Qclt, Qcplus, Qcmult, Qcopp, Qcinv, Qc_of_Z, Q2Qc in *;
  cbn [this inject_Z] in *;
  rewrite ?Qred_correct in *;
  unfold inject_Z in *; cbn [Qinv Qnum Qden] in *.

(** The two weights of the level blend are not negative. *)
Lemma fraction_weights (lod f : float) :
  (f ≤ lod)%Qc → (lod < f + 1)%Qc →
  (0 ≤ 1 - (lod - f))%Qc ∧ (0 ≤ 1 - (f + 1 - lod))%Qc.
Proof. intros Hle Hlt. split; qc_to_q; lra. Qed.

(** The Trilinear Sampler for a level of detail up to the last index: a
    property [Q] of the bilinear samples of the base and of every level
    that blends with weights in [[0, 1]] of sum 1 preserve is a property of the
    result, and every read is inside its image when theirs are.  A level
    of detail that is not positive is one of these. *)
Lemma safe_sample_trilinear (Q : Spectrum → Prop) (base : HDR_Image)
    (levels : list HDR_Image) (uv : Vec2) (lod : float) :
  Z.of_nat (length levels) < 2 ^ 31 →
  (lod ≤ of_int (Z.max 0 (Z.of_nat (length levels) - 1)))%Qc →
  (∀ p q s1 s2, (0 ≤ p)%Qc → (0 ≤ q)%Qc → (p + q = 1)%Qc → Q s1 → Q s2 →
     Q (Spectrum_add (Spectrum_scale p s1) (Spectrum_scale q s2))) →
  (∀ l, l ∈ base :: levels → safe Q (sample_bilinear l uv)) →
  safe Q (sample_trilinear base levels uv lod).
Proof.
  intros Hlen Hmax Hblend Hall.
  destruct (Qclt_le_dec 0 lod) as [Hpos|Hnonpos].
  2:{ unfold sample_trilinear, fleb. rewrite bool_decide_eq_true_2 by done.
      apply Hall. left. }
  rewrite Z.max_r in Hmax.
  2:{ destruct (Z.le_gt_cases 0 (Z.of_nat (length levels) - 1)); [done|].
      rewrite Z.max_l in Hmax by lia. unfold of_int in Hmax.
      rewrite Z2Qc_inj_0 in Hmax. by apply Qcle_not_lt in Hmax. }
  destruct (sample_trilinear_positive base levels uv _ Hpos) as [Hf0 ->].
  cbv zeta. set (last := Z.of_nat (length levels) - 1) in *.
  destruct (ffloor_spec lod) as [Hf1 Hf2].
  assert (ffloor lod <= last) as Hfl
    by (apply Z2Qc_inj_le; by eapply Qcle_trans).
  destruct (lookup_lt_is_Some_2 levels (Z.to_nat (ffloor lod)) ltac:(lia))
    as [l Hl].
  unfold feqb. case_bool_decide as Hint.
  - rewrite (level_at_Some levels (ffloor lod) l Hf0 Hl), bind_mret.
    apply Hall. right. by eapply list_elem_of_lookup_2.
  - rewrite fraction_zero in Hint.
    assert (ffloor lod < last) as Hlt.
    { apply Z2Qc_inj_lt. eapply Qclt_le_trans; [|exact Hmax].
      apply Qcle_lt_or_eq in Hf1 as [?|?]; [done|congruence]. }
    unfold to_size_t.
    rewrite (Z.mod_small last), (to_int32_small last) by lia.
    rewrite (Z.min_r last (ffloor lod + 1)), !Z.mod_small by lia.
    destruct (lookup_lt_is_Some_2 levels (Z.to_nat (ffloor lod + 1))
                ltac:(lia)) as [l' Hl'].
    rewrite (level_at_Some levels (ffloor lod) l Hf0 Hl), bind_mret.
    apply (safe_bind Q);
      [apply Hall; right; by eapply list_elem_of_lookup_2|].
    intros s1 Hs1.
    rewrite (level_at_Some levels (ffloor lod + 1) l' ltac:(lia) Hl'),
      bind_mret.
    apply (safe_bind Q);
      [apply Hall; right; by eapply list_elem_of_lookup_2|].
    intros s2 Hs2. apply safe_mret.
    unfold of_int in *. rewrite Z2Qc_inj_add, Z2Qc_inj_1 in *.
    destruct (fraction_weights lod (Qc_of_Z (ffloor lod)) Hf1 Hf2) as [??].
    apply Hblend; [done|done| |done..]. unfold float in *. ring.
Qed.

(** ** The allocation phase of the Mip-Map Generator *)

(** Halving takes one binary digit away. *)
Lemma log2_half (m : Z) : 2 <= m → Z.log2 (m / 2) = Z.log2 m - 1.
Proof.
  intros Hm.
  assert (1 <= Z.log2 m) by (change 1 with (Z.log2 2); by apply Z.log2_le_mono).
  replace (m / 2) with (Z.shiftr m 1) by (by rewrite Z.shiftr_div_pow2).
  rewrite Z.log2_shiftr; lia.
Qed.

Lemma max_halve (a c : Z) :
  2 <= Z.max a c → Z.max (Z.max 1 (a / 2)) (Z.max 1 (c / 2)) = Z.max a c / 2.
Proof.
  intros H.
  destruct (Z.max_spec a c) as [[Hlt ->]|[Hle ->]];
    assert (a / 2 <= c / 2 ∨ c / 2 <= a / 2) as [?|?]
      by (destruct (Z.le_ge_cases a c);
          [left|right]; apply Z.div_le_mono; lia);
    try (assert (1 <= c / 2) by (apply Z.div_le_lower_bound; lia));
    try (assert (1 <= a / 2) by (apply Z.div_le_lower_bound; lia));
    try lia.
  - assert (a / 2 <= c / 2) by (apply Z.div_le_mono; lia). lia.
  - assert (c / 2 <= a / 2) by (apply Z.div_le_mono; lia). lia.
Qed.

Lemma log2_pos_iff (m : Z) : 0 < Z.log2 m ↔ 2 <= m.
Proof.
  pose proof (Z.log2_null m). pose proof (Z.log2_nonneg m). lia.
Qed.

Lemma allocate_step_halves (i width height : Z) (acc : list HDR_Image) :
  2 <= Z.max width height →
  allocate_step i (width, height, acc)
  = mret (Z.max 1 (width / 2), Z.max 1 (height / 2),
          acc ++ [HDR_Image_new (Z.max 1 (width / 2)) (Z.max 1 (height / 2))]).
Proof.
  intros H. unfold allocate_step.
  replace ((width =? 1) && (height =? 1)) with false
    by (symmetry; apply andb_false_iff; rewrite !Z.eqb_neq; lia).
  cbn [negb assert]. by rewrite bind_mret.
Qed.

(** The loop runs [Z.log2 (max width height)] turns without tripping the
    assertion of line 132, appends the halving schedule and ends at 1x1. *)
Lemma allocate_loop (k : nat) (i width height : Z) (acc : list HDR_Image) :
  1 <= width → 1 <= height → Z.log2 (Z.max width height) = Z.of_nat k →
  for_loop k i allocate_step (width, height, acc)
  = ([], Done (1, 1, acc ++ ((λ d, HDR_Image_new d.1 d.2)
                               <$> level_shapes k width height))).
Proof.
  revert i width height acc.
  induction k as [|k IH]; intros i width height acc Hw Hh Hlog.
  - simpl. apply Z.log2_null in Hlog.
    replace width with 1 by lia. replace height with 1 by lia.
    by rewrite app_nil_r.
  - assert (2 <= Z.max width height) by (apply log2_pos_iff; lia).
    rewrite for_loop_S, allocate_step_halves, bind_mret, IH; [|lia|lia| |done].
    + cbn [level_shapes fmap list_fmap]. by rewrite <- app_assoc.
    + rewrite max_halve, log2_half; lia.
Qed.

Lemma level_shapes_length (n : nat) (width height : Z) :
  length (level_shapes n width height) = n.
Proof.
  revert width height. induction n as [|n IH]; intros; simpl; [done|].
  by rewrite IH.
Qed.

(** The halving schedule ends at 1x1. *)
Lemma level_shapes_last (n : nat) (width height : Z) (d : Z * Z) :
  1 <= width → 1 <= height → Z.log2 (Z.max width height) = Z.of_nat n →
  last (level_shapes n width height) = Some d → d = (1, 1).
Proof.
  revert width height.
  induction n as [|n IH]; intros width height Hw Hh Hlog; [done|].
  assert (2 <= Z.max width height) by (apply log2_pos_iff; lia).
  assert (Z.log2 (Z.max (Z.max 1 (width / 2)) (Z.max 1 (height / 2)))
          = Z.of_nat n) as Hlog' by (rewrite max_halve, log2_half; lia).
  cbn [level_shapes]. destruct n as [|n].
  - cbn. intros [= <-]. apply Z.log2_null in Hlog'. f_equal; lia.
  - intros Hl. cbn [level_shapes] in Hl. rewrite last_cons_cons in Hl.
    apply (IH (Z.max 1 (width / 2)) (Z.max 1 (height / 2)));
      [lia|lia|done|exact Hl].
Qed.

(** Level [i] halves the image before it, level 0 halving [width] x
    [height]. *)
Lemma level_shapes_step (n : nat) (width height : Z) (i : nat) (d : Z * Z) :
  level_shapes n width height !! i = Some d →
  ∃ p, match i with
       | O => Some (width, height)
       | Datatypes.S j => level_shapes n width height !! j
       end = Some p
       ∧ d = (Z.max 1 (p.1 / 2), Z.max 1 (p.2 / 2)).
Proof.
  revert width height i.
  induction n as [|n IH]; intros width height i; [done|].
  destruct i as [|i]; cbn [level_shapes].
  - intros [= <-]. by eexists.
  - intros Hd. change ((?x :: ?l) !! Datatypes.S i) with (l !! i) in Hd.
    destruct (IH _ _ _ Hd) as (p & Hp & ->).
    exists p. split; [|done]. by destruct i.
Qed.

Lemma allocate_levels_shapes (base : HDR_Image) (cached : list HDR_Image) :
  1 <= w base < 2 ^ 32 → 1 <= h base < 2 ^ 32 →
  allocate_levels base cached
  = ([], Done ((λ d, HDR_Image_new d.1 d.2)
                 <$> level_shapes (Z.to_nat (Z.log2 (Z.max (w base) (h base))))
                       (w base) (h base))).
Proof.
  intros Hw Hh. unfold allocate_levels, log2_int32, for_range, clear.
  set (m := Z.max (w base) (h base)).
  assert (1 <= m < 2 ^ 32) as Hm by (unfold m; lia).
  pose proof (Z.log2_nonneg m) as Hn.
  pose proof (Z.log2_le_lin m ltac:(lia)) as Hlin.
  replace (m =? 0) with false by (symmetry; apply Z.eqb_neq; lia).
  replace (0 <=? Z.log2 m) with true by (symmetry; apply Z.leb_le; lia).
  cbn [assert]. rewrite bind_mret.
  rewrite allocate_loop by (fold m; lia).
  rewrite bind_nil_Done. cbn [app assert Z.eqb Pos.eqb andb].
  rewrite bind_mret, length_fmap, level_shapes_length.
  unfold to_uint32. rewrite Z.mod_small by lia.
  replace (Z.of_nat (Z.to_nat (Z.log2 m)) =? Z.log2 m) with true
    by (symmetry; apply Z.eqb_eq; lia).
  done.
Qed.

Lemma allocated_halving_chain (base : HDR_Image) (n : nat) :
  halving_chain base
    ((λ d, HDR_Image_new d.1 d.2) <$> level_shapes n (w base) (h base)).
Proof.
  intros i l Hl. rewrite list_lookup_fmap in Hl.
  destruct (level_shapes n (w base) (h base) !! i) as [d|] eqn:Hd; [|done].
  injection Hl as <-.
  destruct (level_shapes_step _ _ _ _ _ Hd) as (p & Hp & ->).
  destruct i as [|i]; cbn [source_of].
  - injection Hp as <-. by exists base.
  - exists (HDR_Image_new p.1 p.2). by rewrite list_lookup_fmap, Hp.
Qed.

(** ** The assertions of the Mip-Map Generator *)

Lemma no_assert_block_sum (src : HDR_Image) (x0 y0 nx ny : Z) :
  no_assert (λ _, True) (block_sum src x0 y0 nx ny).
Proof.
  unfold block_sum. apply no_assert_for_range; [done|]. intros i s _ _.
  apply no_assert_for_range; [done|]. intros j s' _ _.
  apply (no_assert_bind (λ _, True)); [apply no_assert_at_|done].
Qed.

(** [downsample] keeps the dimensions of its destination, and its two
    size assertions hold whenever the destination has the halved size. *)
Lemma no_assert_downsample (src dst : HDR_Image) :
  Z.max 1 (w src / 2) = w dst → Z.max 1 (h src / 2) = h dst →
  no_assert (λ d, shape d = shape dst) (downsample src dst).
Proof.
  intros Hw Hh. unfold downsample.
  assert (∀ (x y : Z) (k : Z) (d : HDR_Image) x0 y0 nx ny,
            shape d = shape dst →
            no_assert (λ d', shape d' = shape dst)
              (s ← block_sum src x0 y0 nx ny;
               at_put d x y (Spectrum_div s (of_int k)))) as Hput.
  { intros x y k d x0 y0 nx ny Hd.
    apply (no_assert_bind (λ _, True)); [apply no_assert_block_sum|].
    intros s _. rewrite <- Hd. apply no_assert_at_put. }
  apply (no_assert_bind (λ _, True));
    [apply no_assert_assert; by apply Z.eqb_eq|intros _ _].
  apply (no_assert_bind (λ _, True));
    [apply no_assert_assert; by apply Z.eqb_eq|intros _ _].
  apply (no_assert_bind (λ d, shape d = shape dst)).
  { apply no_assert_for_range; [done|]. intros i d _ Hd.
    apply no_assert_for_range; [done|]. intros j d' _ Hd'. by apply Hput. }
  intros d1 Hd1. apply (no_assert_bind (λ d, shape d = shape dst)).
  { destruct (is_odd (w src)); [|done].
    apply no_assert_for_range; [done|]. intros j d _ Hd. by apply Hput. }
  intros d2 Hd2. apply (no_assert_bind (λ d, shape d = shape dst)).
  { destruct (is_odd (h src)); [|done].
    apply no_assert_for_range; [done|]. intros j d _ Hd. by apply Hput. }
  intros d3 Hd3. destruct (_ && _); [|done]. by apply Hput.
Qed.

(** The source the fill loop picks at turn [i]. *)
Lemma fetch_source (base : HDR_Image) (lv : list HDR_Image) (i : Z)
    (p : HDR_Image) :
  0 <= i → source_of base lv (Z.to_nat i) = Some p →
  (if i =? 0 then mret base else level_at lv (i - 1)) = mret p.
Proof.
  intros Hi Hp. destruct (Z.eqb_spec i 0) as [->|Hne].
  - cbn in Hp. by injection Hp as ->.
  - replace (Z.to_nat i) with (Datatypes.S (Z.to_nat (i - 1))) in Hp by lia.
    cbn in Hp. replace (i - 1) with (Z.of_nat (Z.to_nat (i - 1))) by lia.
    by apply level_at_lookup.
Qed.

(** The halving chain depends on the dimensions of the levels only. *)
Lemma halving_chain_shape (base : HDR_Image) (lv lv' : list HDR_Image) :
  shape <$> lv = shape <$> lv' → halving_chain base lv' → halving_chain base lv.
Proof.
  intros Heq Hch i l Hl.
  assert (∀ j a, lv !! j = Some a → ∃ a', lv' !! j = Some a' ∧ shape a = shape a')
    as Hsame.
  { intros j a Ha.
    assert ((shape <$> lv') !! j = Some (shape a)) as Hj
      by (by rewrite <- Heq, list_lookup_fmap, Ha).
    rewrite list_lookup_fmap in Hj.
    destruct (lv' !! j) as [a'|]; [|done]. exists a'. split; [done|].
    cbn in Hj. congruence. }
  destruct (Hsame _ _ Hl) as (l' & Hl' & Hll').
  destruct (Hch _ _ Hl') as (p' & Hp' & Hwp & Hhp).
  injection Hll' as Hw Hh.
  destruct i as [|i]; cbn [source_of] in *.
  - exists p'. split; [done|]. by rewrite Hw, Hh.
  - pose proof (lookup_lt_Some _ _ _ Hp') as Hlt.
    assert (length lv = length lv') as Hlen
      by (by rewrite <- (length_fmap shape lv), Heq, length_fmap).
    destruct (lookup_lt_is_Some_2 lv i ltac:(lia)) as [p Hp].
    destruct (Hsame _ _ Hp) as (p'' & Hp'' & Hpp).
    assert (p'' = p') as -> by congruence.
    injection Hpp as Hpw Hph.
    exists p. split; [done|]. by rewrite Hw, Hh, Hpw, Hph.
Qed.

(** The fill loop keeps the dimensions of every level and trips neither an
    assertion nor a level index. *)
Lemma no_assert_fill_levels (base : HDR_Image) (levels : list HDR_Image) :
  halving_chain base levels →
  no_assert (λ lv, shape <$> lv = shape <$> levels) (fill_levels base levels).
Proof.
  intros Hch. unfold fill_levels.
  apply no_assert_for_range; [done|]. intros i lv Hi Hlv.
  assert (length lv = length levels) as Hlen
    by (by rewrite <- (length_fmap shape lv), Hlv, length_fmap).
  destruct (lookup_lt_is_Some_2 lv (Z.to_nat i) ltac:(lia)) as [dst Hdst].
  destruct (halving_chain_shape base lv levels Hlv Hch _ _ Hdst)
    as (src & Hsrc & Hw & Hh).
  rewrite (fetch_source base lv i src) by (done || lia). rewrite bind_mret.
  replace i with (Z.of_nat (Z.to_nat i)) at 1 by lia.
  rewrite (level_at_lookup _ _ _ Hdst), bind_mret.
  apply (no_assert_bind (λ d, shape d = shape dst)).
  { by apply no_assert_downsample. }
  intros dst' Hdst'. apply no_assert_mret.
  rewrite list_fmap_insert, <- Hlv. apply list_insert_id.
  by rewrite list_lookup_fmap, Hdst, Hdst'.
Qed.

(** For a base image of at least 1x1 the allocation block yields exactly
    [floor(log2(max(w, h)))] levels, each of the dimensions
    [max(1, floor(dim/2))] of the image before it, the last one 1x1, and
    touches no pixel; the generator as a whole trips none of its assertions
    (those of the allocation block and the two of [downsample]) and never
    indexes the level vector out of range, and the levels it returns, when
    it returns, have the allocated dimensions.  Whether it returns is
    settled further down: it does when the two dimensions have the same
    number of binary digits, and stops on a read outside an image
    otherwise. *)
Lemma generate_mipmap_level_shapes (base : HDR_Image)
    (cached : list HDR_Image) :
  1 <= w base < 2 ^ 32 → 1 <= h base < 2 ^ 32 →
  ∃ levels,
    allocate_levels base cached = ([], Done levels)
    ∧ length levels = Z.to_nat (Z.log2 (Z.max (w base) (h base)))
    ∧ halving_chain base levels
    ∧ (∀ l, last levels = Some l → w l = 1 ∧ h l = 1)
    ∧ no_assert (λ lv, shape <$> lv = shape <$> levels)
        (generate_mipmap base cached).
Proof.
  intros Hw Hh.
  set (n := Z.to_nat (Z.log2 (Z.max (w base) (h base)))).
  exists ((λ d, HDR_Image_new d.1 d.2) <$> level_shapes n (w base) (h base)).
  pose proof (allocate_levels_shapes base cached Hw Hh) as Halloc.
  fold n in Halloc.
  split; [done|split; [|split; [|split]]].
  - by rewrite length_fmap, level_shapes_length.
  - apply allocated_halving_chain.
  - intros l. rewrite fmap_last.
    destruct (last _) as [d|] eqn:Hd; [|done]. intros [= <-].
    apply level_shapes_last in Hd as ->; [done|lia|lia|].
    unfold n. pose proof (Z.log2_nonneg (Z.max (w base) (h base))). lia.
  - unfold generate_mipmap. rewrite Halloc, bind_nil_Done.
    apply no_assert_fill_levels, allocated_halving_chain.
Qed.

(** ** The downsample step on sources of at least 2x2 *)

Lemma seqZ_snoc (j : Z) : 0 <= j → seqZ 0 (j + 1) = seqZ 0 j ++ [j].
Proof. intros Hj. by rewrite seqZ_app by lia. Qed.

(** [block_sum] reads the block and nothing else, and returns its sum,
    when the block lies inside the source. *)
Lemma safe_block_sum (src : HDR_Image) (x0 y0 nx ny : Z) :
  length (pixels src) = Z.to_nat (w src * h src) →
  0 <= x0 → 0 <= y0 → 0 <= nx → 0 <= ny →
  x0 + nx <= w src → y0 + ny <= h src →
  safe (λ s, s = block_total src x0 y0 nx ny) (block_sum src x0 y0 nx ny).
Proof.
  intros Hlen Hx0 Hy0 Hnx Hny Hx Hy. unfold block_sum, block_total.
  set (inner := λ i s j, Spectrum_add s (pixel src (x0 + i) (y0 + j))).
  set (outer := λ s i, foldl (inner i) s (seqZ 0 ny)).
  apply (safe_for_range (λ i s, s = foldl outer Spectrum_zero (seqZ 0 i)));
    [done|done|].
  intros i s Hi ->.
  eapply safe_weaken;
    [|apply (safe_for_range
               (λ j s, s = foldl (inner i)
                             (foldl outer Spectrum_zero (seqZ 0 i))
                             (seqZ 0 j))); [done|done|]].
  - intros s ->. by rewrite seqZ_snoc, foldl_app by lia.
  - intros j s Hj ->.
    apply (safe_bind (λ c, c = pixel src (x0 + i) (y0 + j)));
      [apply safe_at_; [done|lia|lia]|].
    intros c ->. apply safe_mret. by rewrite seqZ_snoc, foldl_app by lia.
Qed.

Lemma frame_of_put_pixel (dst d : HDR_Image) (x y : Z) (c : Spectrum) :
  frame_of dst d → frame_of dst (put_pixel d x y c).
Proof.
  intros (Hw & Hh & Hlen). unfold frame_of, put_pixel. cbn [w h pixels].
  by rewrite length_insert.
Qed.

(** One store of a block average: [s = sum of the block; d.at(x, y) = s / k]. *)
Lemma safe_store_box (src dst d : HDR_Image) (x y nx ny k : Z) :
  length (pixels src) = Z.to_nat (w src * h src) →
  frame_of dst d →
  0 <= x < w dst → 0 <= y < h dst → 0 <= nx → 0 <= ny →
  2 * x + nx <= w src → 2 * y + ny <= h src → k = nx * ny →
  safe (λ d', d' = put_pixel d x y (box src x y nx ny))
    (s ← block_sum src (2 * x) (2 * y) nx ny;
     at_put d x y (Spectrum_div s (of_int k))).
Proof.
  intros Hsrc (Hw & Hh & Hlen) Hx Hy Hnx Hny Hbx Hby ->.
  apply (safe_bind (λ s, s = block_total src (2 * x) (2 * y) nx ny)).
  - apply safe_block_sum; [done|lia..].
  - intros s ->. apply safe_at_put; [|lia|lia]. by rewrite Hlen, Hw, Hh.
Qed.

Lemma filled_mono (src dst : HDR_Image) (R R' : Z → Z → Prop)
    (d : HDR_Image) :
  (∀ x y, 0 <= x < w dst → 0 <= y < h dst → R' x y → R x y) →
  filled src dst R d → filled src dst R' d.
Proof. intros HR [Hfr Hpx]. split; [done|]. auto. Qed.

(** Storing a box average at [(x, y)] extends the filled region by that
    texel, provided the average is the one the texel is due. *)
Lemma filled_store (src dst : HDR_Image) (R R' : Z → Z → Prop)
    (d : HDR_Image) (x y nx ny : Z) :
  filled src dst R d → 0 <= x < w dst → 0 <= y < h dst →
  (∀ x' y', 0 <= x' < w dst → 0 <= y' < h dst → R' x' y' →
     (x' = x ∧ y' = y ∧ downsample_spec src x y = box src x y nx ny)
     ∨ ((x, y) ≠ (x', y') ∧ R x' y')) →
  filled src dst R' (put_pixel d x y (box src x y nx ny)).
Proof.
  intros [Hfr Hpx] Hx Hy HR. split; [by apply frame_of_put_pixel|].
  destruct Hfr as (Hfw & Hfh & Hlen).
  intros x' y' Hx' Hy' HR'.
  destruct (HR x' y' Hx' Hy' HR') as [(-> & -> & ->)|[Hne HRxy]].
  - apply pixel_put_pixel_eq; [|lia|lia]. by rewrite Hlen, Hfw, Hfh.
  - rewrite pixel_put_pixel_ne; [by apply Hpx|lia|lia|lia|lia|done].
Qed.

Lemma parity_split_intro (n half : Z) :
  2 <= n → half = Z.max 1 (n / 2) →
  parity_split n half (if is_odd n then half - 1 else half).
Proof.
  intros Hn ->. unfold parity_split, is_odd.
  destruct (Z.eqb_spec (n mod 2) 1); [left|right];
    (split; [done|]); Z.to_euclidean_division_equations; lia.
Qed.

(** The block under a destination texel is 2 wide where the code's first
    loop runs and 3 wide in the column it leaves out, and likewise high. *)
Lemma downsample_spec_case (src dst : HDR_Image) (dstW dstH x y : Z) :
  w dst = Z.max 1 (w src / 2) → h dst = Z.max 1 (h src / 2) →
  parity_split (w src) (w dst) dstW → parity_split (h src) (h dst) dstH →
  0 <= x < w dst → 0 <= y < h dst →
  downsample_spec src x y
  = box src x y (if x <? dstW then 2 else 3) (if y <? dstH then 2 else 3).
Proof.
  intros Hdw Hdh HsW HsH Hx Hy. unfold downsample_spec. rewrite <- Hdw, <- Hdh.
  assert (∀ n half m v, parity_split n half m → 0 <= v < half →
            (if is_odd n && (v =? half - 1) then 3 else 2)
            = (if v <? m then 2 else 3)) as Hside.
  { intros n half m v [(-> & -> & _)|(-> & -> & _)] Hv; cbn [andb].
    - destruct (Z.eqb_spec v (half - 1)), (Z.ltb_spec v (half - 1)); lia.
    - destruct (Z.ltb_spec v half); lia. }
  by rewrite (Hside _ _ _ x HsW Hx), (Hside _ _ _ y HsH Hy).
Qed.

Ltac decide_ltb :=
  repeat match goal with
         | |- context [?a <? ?b] => destruct (Z.ltb_spec a b); try lia
         end.

Ltac store_cases x y :=
  let x' := fresh "x'" in
  let y' := fresh "y'" in
  intros x' y' ? ? ?;
  destruct (decide (x' = x ∧ y' = y)) as [[-> ->]|?];
  [left; split; [done|split; [done|]]
  |right; split; [intros [= ? ?]; lia|lia]].

(** On a source of at least 2x2 and a destination of the halved size,
    [downsample] runs to completion, touches pixels inside the two images
    only, and leaves in every destination texel the average of its block:
    2x2 in the interior, 3x2 in the last column of an odd-width source, 2x3
    in the last row of an odd-height source, 3x3 in the corner of both. *)
Theorem downsample_box_filter (src dst : HDR_Image) :
length (pixels src) = Z.to_nat (w src * h src) →
2 <= w src < 2 ^ 32 → 2 <= h src < 2 ^ 32 →
w dst = Z.max 1 (w src / 2) → h dst = Z.max 1 (h src / 2) →
length (pixels dst) = Z.to_nat (w dst * h dst) →
safe (filled src dst (λ _ _, True)) (downsample src dst).
Proof.
  intros Hsrc Hw Hh Hdw Hdh Hdst. unfold downsample.
  rewrite <- Hdw, <- Hdh, !Z.eqb_refl. cbn [assert]. rewrite !bind_mret.
  assert (1 <= w dst < 2 ^ 31) as HW
    by (Z.to_euclidean_division_equations; lia).
  assert (1 <= h dst < 2 ^ 31) as HH
    by (Z.to_euclidean_division_equations; lia).
  rewrite (to_int32_small (w dst)), (to_int32_small (h dst)) by lia.
  pose proof (parity_split_intro (w src) (w dst) ltac:(lia) Hdw) as HsW.
  pose proof (parity_split_intro (h src) (h dst) ltac:(lia) Hdh) as HsH.
  set (dstW := if is_odd (w src) then w dst - 1 else w dst) in *.
  set (dstH := if is_odd (h src) then h dst - 1 else h dst) in *.
  clearbody dstW dstH.
  pose proof (λ x y, downsample_spec_case src dst dstW dstH x y Hdw Hdh HsW HsH)
    as Hspec.
  assert (dstW = w dst - 1 ∧ w src = 2 * w dst + 1
          ∨ dstW = w dst ∧ w src = 2 * w dst) as HaW
    by (destruct HsW as [(_ & ? & ?)|(_ & ? & ?)]; lia).
  assert (dstH = h dst - 1 ∧ h src = 2 * h dst + 1
          ∨ dstH = h dst ∧ h src = 2 * h dst) as HaH
    by (destruct HsH as [(_ & ? & ?)|(_ & ? & ?)]; lia).
  (* the even-aligned interior *)
  apply (safe_bind (filled src dst (λ x y, x < dstW ∧ y < dstH))).
  { eapply safe_weaken;
      [|apply (safe_for_range
                 (λ i, filled src dst (λ x y, x < i ∧ x < dstW ∧ y < dstH)))].
    - intros d. apply filled_mono. intros; lia.
    - lia.
    - split; [done|]. intros; lia.
    - intros i d Hi Hd.
      eapply safe_weaken;
        [|apply (safe_for_range
                   (λ j, filled src dst (λ x y, x < dstW ∧ y < dstH
                                        ∧ (x < i ∨ (x = i ∧ y < j)))))].
      + intros d'. apply filled_mono. intros; lia.
      + lia.
      + revert Hd. apply filled_mono. intros; lia.
      + intros j d' Hj Hd'.
        eapply safe_weaken;
          [|apply (safe_store_box src dst d' i j 2 2 4);
            [done|apply Hd'|lia..]].
        intros ? ->. eapply filled_store; [exact Hd'|lia|lia|].
        store_cases i j. rewrite Hspec by lia. by decide_ltb. }
  intros d1 Hd1. pose proof Hd1 as [(Hw1 & Hh1 & _) _].
  rewrite Hw1, Hh1.
  rewrite (to_uint32_small (w dst - 1)), (to_uint32_small (h dst - 1)) by lia.
  rewrite (to_int32_small (w dst - 1)), (to_int32_small (h dst - 1)) by lia.
  (* the last column of an odd-width source *)
  apply (safe_bind (filled src dst (λ x y, x < dstW ∧ y < dstH
                                   ∨ dstW <= x ∧ y < dstH))).
  { destruct HsW as [(-> & HdW & Hws)|(-> & HdW & Hws)].
    - eapply safe_weaken;
        [|apply (safe_for_range
                   (λ j, filled src dst (λ x y, x < dstW ∧ y < dstH
                                        ∨ dstW <= x ∧ y < j ∧ y < dstH)))].
      + intros d. apply filled_mono. intros; lia.
      + lia.
      + revert Hd1. apply filled_mono. intros; lia.
      + intros j d Hj Hd.
        rewrite (Z.mul_comm (w dst - 1) 2), (Z.mul_comm j 2).
        eapply safe_weaken;
          [|apply (safe_store_box src dst d (w dst - 1) j 3 2 6);
            [done|apply Hd|lia..]].
        intros ? ->. eapply filled_store; [exact Hd|lia|lia|].
        store_cases (w dst - 1) j. rewrite Hspec by lia. by decide_ltb.
    - apply safe_mret. revert Hd1. apply filled_mono. intros; lia. }
  intros d2 Hd2. pose proof Hd2 as [(Hw2 & _ & _) _]. rewrite Hw2.
  (* the last row of an odd-height source *)
  apply (safe_bind (filled src dst (λ x y, (x < dstW ∧ y < dstH
                                    ∨ dstW <= x ∧ y < dstH)
                                   ∨ dstH <= y ∧ x < dstW))).
  { destruct HsH as [(-> & HdH & Hhs)|(-> & HdH & Hhs)].
    - eapply safe_weaken;
        [|apply (safe_for_range
                   (λ i, filled src dst (λ x y, (x < dstW ∧ y < dstH
                                         ∨ dstW <= x ∧ y < dstH)
                                        ∨ dstH <= y ∧ x < i ∧ x < dstW)))].
      + intros d. apply filled_mono. intros; lia.
      + lia.
      + revert Hd2. apply filled_mono. intros; lia.
      + intros i d Hi Hd.
        rewrite (Z.mul_comm (h dst - 1) 2), (Z.mul_comm i 2).
        eapply safe_weaken;
          [|apply (safe_store_box src dst d i (h dst - 1) 2 3 6);
            [done|apply Hd|lia..]].
        intros ? ->. eapply filled_store; [exact Hd|lia|lia|].
        store_cases i (h dst - 1). rewrite Hspec by lia. by decide_ltb.
    - apply safe_mret. revert Hd2. apply filled_mono. intros; lia. }
  intros d3 Hd3.
  (* the corner when both are odd *)
  destruct (is_odd (w src) && is_odd (h src)) eqn:Hboth.
  - apply andb_prop in Hboth as [How Hoh].
    destruct HsW as [(_ & HdW & Hws)|(Hc & _)]; [|congruence].
    destruct HsH as [(_ & HdH & Hhs)|(Hc & _)]; [|congruence].
    rewrite (Z.mul_comm (w dst - 1) 2), (Z.mul_comm (h dst - 1) 2).
    eapply safe_weaken;
      [|apply (safe_store_box src dst d3 (w dst - 1) (h dst - 1) 3 3 9);
        [done|apply Hd3|lia..]].
    intros ? ->. eapply filled_store; [exact Hd3|lia|lia|].
    store_cases (w dst - 1) (h dst - 1). rewrite Hspec by lia. by decide_ltb.
  - apply safe_mret. revert Hd3. apply filled_mono. intros x y Hx Hy _.
    apply andb_false_iff in Hboth as [Hc|Hc].
    + destruct HsW as [(? & _)|(_ & HdW & _)]; [congruence|]. lia.
    + destruct HsH as [(? & _)|(_ & HdH & _)]; [congruence|]. lia.
Qed.

(** ** The downsample step, source by source *)

(** X12.  On a source of at least 2x2 and a destination of the halved size,
    [downsample] returns the destination with every texel replaced by the
    unweighted average of its block of the source: 2x2 in the interior, 3
    wide in the last column of an odd-width source, 3 high in the last row
    of an odd-height source. Every pixel access is inside its image. *)
Theorem downsample_averages_blocks (src dst : HDR_Image) :
  length (pixels src) = Z.to_nat (w src * h src) →
  2 <= w src < 2 ^ 32 → 2 <= h src < 2 ^ 32 →
  w dst = Z.max 1 (w src / 2) → h dst = Z.max 1 (h src / 2) →
  length (pixels dst) = Z.to_nat (w dst * h dst) →
  ∃ d, result (downsample src dst) = Done d
       ∧ w d = w dst ∧ h d = h dst
       ∧ (∀ x y, 0 <= x < w dst → 0 <= y < h dst →
                 pixel d x y = downsample_spec src x y)
       ∧ Forall in_range (trace (downsample src dst)).
Proof.
  intros Hsrc Hw Hh Hdw Hdh Hdst.
  destruct (safe_result _ _
              (downsample_box_filter src dst Hsrc Hw Hh Hdw Hdh Hdst))
    as (d & Hd & [(Hwd & Hhd & _) Hpx] & Ht).
  exists d. repeat split; try done. intros x y Hx Hy. by apply Hpx.
Qed.

Lemma downsample_averages_blocks_witness :
  ∃ d, result (downsample white_4x4 (HDR_Image_new 2 2)) = Done d
       ∧ w d = 2 ∧ h d = 2
       ∧ (∀ x y, 0 <= x < 2 → 0 <= y < 2 →
                 pixel d x y = downsample_spec white_4x4 x y)
       ∧ Forall in_range (trace (downsample white_4x4 (HDR_Image_new 2 2))).
Proof.
  apply (downsample_averages_blocks white_4x4 (HDR_Image_new 2 2));
    [reflexivity|simpl; lia|simpl; lia|reflexivity|reflexivity|reflexivity].
Defined.

Lemma downsample_thin_abort (src dst : HDR_Image) :
  length (pixels src) = Z.to_nat (w src * h src) →
  1 <= w src < 2 ^ 32 → 1 <= h src < 2 ^ 32 →
  w dst = Z.max 1 (w src / 2) → h dst = Z.max 1 (h src / 2) →
  (w src = 1 ∧ 2 <= h src) ∨ (h src = 1 ∧ 2 <= w src) →
  ∃ x y, result (downsample src dst)
         = Abort (OutOfRange (PixelRead (w src) (h src) x y))
         ∧ ¬ (0 <= x < w src ∧ 0 <= y < h src).
Proof.
  intros Hlen Hw Hh Hdw Hdh Hthin. unfold downsample.
  rewrite <- Hdw, <- Hdh, !Z.eqb_refl. cbn [assert]. rewrite !bind_mret.
  assert (1 <= w dst < 2 ^ 31 ∧ 1 <= h dst < 2 ^ 31) as [HW HH]
    by (Z.to_euclidean_division_equations; lia).
  rewrite (to_int32_small (w dst)), (to_int32_small (h dst)) by lia.
  destruct Hthin as [[Hw1 Hh2]|[Hh1 Hw2]].
  - (* one column *)
    assert (w dst = 1) as HW1 by (rewrite Hdw, Hw1; done).
    assert (is_odd (w src) = true) as -> by (by rewrite Hw1). cbn [andb].
    rewrite HW1. change (1 - 1) with 0.
    change (for_range 0 ?f dst) with (mret dst : M HDR_Image).
    rewrite bind_mret, HW1.
    change (to_int32 (to_uint32 (1 - 1))) with 0.
    exists 1, 0. split; [|lia].
    apply result_Abort_bind. rewrite for_range_first by lia.
    do 2 apply result_Abort_bind. unfold block_sum.
    change (for_range 3 ?f ?s) with (for_loop 3 0 f s).
    change (for_range 2 ?f ?s) with (for_loop 2 0 f s).
    cbn [for_loop].
    change (0 * 2 + 0) with 0. change (0 * 2 + (0 + 1)) with 1.
    change (0 * 2 + (0 + 1 + 1)) with 2.
    rewrite (at_inside src 0 0), (at_inside src 0 1) by (done || lia).
    rewrite (at_outside src 1 0) by lia.
    rewrite !bind_Done. cbn [trace result fst snd mret M_ret].
    rewrite !bind_Done. cbn [trace result fst snd mret M_ret].
    done.
  - (* one row *)
    assert (h dst = 1) as HH1 by (rewrite Hdh, Hh1; done).
    assert (is_odd (h src) = true) as -> by (by rewrite Hh1).
    rewrite HH1. change (1 - 1) with 0.
    rewrite for_range_skip by done.
    rewrite bind_mret, HH1.
    rewrite (to_uint32_small (w dst - 1)), (to_int32_small (w dst - 1)) by lia.
    change (to_int32 (to_uint32 (1 - 1))) with 0.
    destruct (is_odd (w src)).
    + (* odd width: the last-column loop runs first *)
      exists ((w dst - 1) * 2), 1. split; [|lia].
      apply result_Abort_bind. change (for_range 1 ?f ?s) with (for_loop 1 0 f s).
      cbn [for_loop]. do 2 apply result_Abort_bind. unfold block_sum.
      change (for_range 3 ?f ?s) with (for_loop 3 0 f s).
      change (for_range 2 ?f ?s) with (for_loop 2 0 f s).
      cbn [for_loop].
      change (0 * 2 + 0) with 0. change (0 * 2 + (0 + 1)) with 1.
      rewrite Z.add_0_r.
      rewrite (at_inside src ((w dst - 1) * 2) 0)
        by (done || Z.to_euclidean_division_equations; lia).
      rewrite (at_outside src ((w dst - 1) * 2) 1) by lia.
      rewrite !bind_Done. cbn [trace result fst snd mret M_ret].
      by rewrite !bind_Done.
    + (* even width: the last-row loop *)
      exists 0, 1. split; [|lia].
      rewrite bind_mret. apply result_Abort_bind.
      rewrite for_range_first by lia.
      do 2 apply result_Abort_bind. unfold block_sum.
      change (for_range 2 ?f ?s) with (for_loop 2 0 f s).
      change (for_range 3 ?f ?s) with (for_loop 3 0 f s).
      cbn [for_loop].
      change (0 * 2 + 0) with 0. change (0 * 2 + (0 + 1)) with 1.
      rewrite (at_inside src 0 0) by (done || lia).
      rewrite (at_outside src 0 1) by lia.
      rewrite !bind_Done. cbn [trace result fst snd mret M_ret].
      by rewrite !bind_Done.
Qed.

(** X13.  On a source with one row or one column, and more than one texel,
    [downsample] does not return: the source dimension 1 is odd, so the code
    sums a block three texels wide or high and stops on a read outside the
    source. *)
Theorem downsample_thin_source (src dst : HDR_Image) :
  length (pixels src) = Z.to_nat (w src * h src) →
  1 <= w src < 2 ^ 32 → 1 <= h src < 2 ^ 32 →
  w dst = Z.max 1 (w src / 2) → h dst = Z.max 1 (h src / 2) →
  (w src = 1 ∧ 2 <= h src) ∨ (h src = 1 ∧ 2 <= w src) →
  ∃ a, result (downsample src dst) = Abort (OutOfRange a) ∧ ¬ in_range a.
Proof.
  intros Hlen Hw Hh Hdw Hdh Hthin.
  destruct (downsample_thin_abort src dst Hlen Hw Hh Hdw Hdh Hthin)
    as (x & y & Hres & Hout).
  by exists (PixelRead (w src) (h src) x y).
Qed.

Lemma downsample_thin_source_witness :
  ∃ a, result (downsample ramp_2x1 (HDR_Image_new 1 1)) = Abort (OutOfRange a)
       ∧ ¬ in_range a.
Proof.
  apply (downsample_thin_source ramp_2x1 (HDR_Image_new 1 1));
    [reflexivity|simpl; lia|simpl; lia|reflexivity|reflexivity
    |right; simpl; lia].
Defined.

(** ** The Mip-Map Generator on balanced images *)

(** When [Z.log2] of both dimensions is [n], each of the first [n] images
    of the pyramid, the base included, is at least 2x2. *)
Lemma balanced_shapes (n : nat) (width height : Z) (k : nat) (d : Z * Z) :
  Z.log2 width = Z.of_nat n → Z.log2 height = Z.of_nat n →
  1 <= width < 2 ^ 32 → 1 <= height < 2 ^ 32 →
  (k < n)%nat →
  ((width, height) :: level_shapes n width height) !! k = Some d →
  2 <= d.1 < 2 ^ 32 ∧ 2 <= d.2 < 2 ^ 32.
Proof.
  revert width height k.
  induction n as [|n IH]; intros width height k Hlw Hlh Hw Hh Hk; [lia|].
  assert (2 <= width) by (apply log2_pos_iff; lia).
  assert (2 <= height) by (apply log2_pos_iff; lia).
  destruct k as [|k].
  - intros [= <-]. cbn. lia.
  - cbn [level_shapes]. change ((?a :: ?l) !! Datatypes.S k) with (l !! k).
    assert (Z.max 1 (width / 2) = width / 2 ∧ width / 2 < 2 ^ 32) as [-> ?]
      by (Z.to_euclidean_division_equations; lia).
    assert (Z.max 1 (height / 2) = height / 2 ∧ height / 2 < 2 ^ 32) as [-> ?]
      by (Z.to_euclidean_division_equations; lia).
    assert (1 <= width / 2 ∧ 1 <= height / 2) as [??]
      by (Z.to_euclidean_division_equations; lia).
    apply IH; [rewrite log2_half; lia|rewrite log2_half; lia|lia..].
Qed.

Lemma source_of_allocated (base : HDR_Image) (n k : nat) (p : HDR_Image) :
  source_of base ((λ d, HDR_Image_new d.1 d.2)
                    <$> level_shapes n (w base) (h base)) k = Some p →
  ((w base, h base) :: level_shapes n (w base) (h base)) !! k = Some (shape p).
Proof.
  destruct k as [|k]; cbn [source_of].
  - by intros [= <-].
  - rewrite list_lookup_fmap. change ((?a :: ?l) !! Datatypes.S k) with (l !! k).
    destruct (_ !! k) as [[]|]; [|done]. by intros [= <-].
Qed.

Lemma frame_of_new (width height : Z) :
  frame_of (HDR_Image_new width height) (HDR_Image_new width height).
Proof.
  unfold frame_of, HDR_Image_new. cbn [w h pixels]. by rewrite length_replicate.
Qed.


(** Levels that kept their frames have sources that kept theirs. *)
Lemma source_of_frames (base : HDR_Image) (lv0 lv : list HDR_Image) (k : nat)
    (p0 : HDR_Image) :
  frame_of base base → Forall2 frame_of lv0 lv →
  source_of base lv0 k = Some p0 →
  ∃ p, source_of base lv k = Some p ∧ frame_of p0 p.
Proof.
  intros Hb HF. destruct k as [|k]; cbn [source_of].
  - intros [= <-]. by exists base.
  - intros Hp0. destruct (Forall2_lookup_l _ _ _ _ _ HF Hp0) as (p & ? & ?).
    by exists p.
Qed.

(** What is known of level [i] and of the image before it while the
    levels keep their allocated frames. *)
Lemma level_context (base : HDR_Image) (n : nat) (lv : list HDR_Image)
    (i : nat) (l : HDR_Image) :
  wf_image base → 1 <= w base → 1 <= h base →
  Z.log2 (w base) = Z.of_nat n → Z.log2 (h base) = Z.of_nat n →
  Forall2 frame_of
    ((λ d, HDR_Image_new d.1 d.2) <$> level_shapes n (w base) (h base)) lv →
  lv !! i = Some l →
  ∃ p, source_of base lv i = Some p
       ∧ 2 <= w p < 2 ^ 32 ∧ 2 <= h p < 2 ^ 32
       ∧ length (pixels p) = Z.to_nat (w p * h p)
       ∧ w l = Z.max 1 (w p / 2) ∧ h l = Z.max 1 (h p / 2)
       ∧ length (pixels l) = Z.to_nat (w l * h l).
Proof.
  intros Hbase Hw1 Hh1 Hlw Hlh HF Hl.
  assert (frame_of base base) as Hfb by (by destruct Hbase as (_ & _ & ?)).
  assert (i < n)%nat as Hi.
  { apply lookup_lt_Some in Hl.
    by rewrite <- (Forall2_length _ _ _ HF), length_fmap,
      level_shapes_length in Hl. }
  destruct (Forall2_lookup_r _ _ _ _ _ HF Hl) as (l0 & Hl0 & Hdw & Hdh & Hdlen).
  destruct (allocated_halving_chain base n _ _ Hl0) as (p0 & Hp0 & Hwl0 & Hhl0).
  destruct (balanced_shapes n (w base) (h base) i (shape p0)) as [Hp0w Hp0h];
    [done|done|destruct Hbase; lia|destruct Hbase; lia|done
    |by apply source_of_allocated|].
  cbn [shape fst snd] in Hp0w, Hp0h.
  destruct (source_of_frames base _ lv _ _ Hfb HF Hp0)
    as (p & Hp & Hpw & Hph & Hplen).
  exists p. rewrite Hpw, Hph, Hplen, Hdw, Hdh, Hdlen. by repeat split; try lia.
Qed.

(** The fill loop on the allocated levels of a balanced base. *)
Lemma fill_levels_balanced (base : HDR_Image) (n : nat) :
  wf_image base → 1 <= w base → 1 <= h base →
  Z.log2 (w base) = Z.of_nat n → Z.log2 (h base) = Z.of_nat n →
  safe (λ lv, length lv = n ∧ box_pyramid base lv)
    (fill_levels base
       ((λ d, HDR_Image_new d.1 d.2) <$> level_shapes n (w base) (h base))).
Proof.
  intros Hbase Hw1 Hh1 Hlw Hlh.
  pose proof (λ lv i l, level_context base n lv i l Hbase Hw1 Hh1 Hlw Hlh)
    as level_context'.
  set (lv0 := (λ d, HDR_Image_new d.1 d.2)
                <$> level_shapes n (w base) (h base)).
  assert (length lv0 = n) as Hlen0
    by (unfold lv0; by rewrite length_fmap, level_shapes_length).
  unfold fill_levels. rewrite Hlen0.
  eapply safe_weaken;
    [|apply (safe_for_range
               (λ i lv,
                  Forall2 frame_of lv0 lv
                  ∧ ∀ k l p, Z.of_nat k < i → lv !! k = Some l →
                      source_of base lv k = Some p →
                      ∀ x y, 0 <= x < w l → 0 <= y < h l →
                             pixel l x y = downsample_spec p x y))].
  - intros lv [HF Hc].
    assert (length lv = n) as Hlen
      by (by rewrite <- (Forall2_length _ _ _ HF)).
    split; [done|]. intros i l Hl.
    destruct (level_context' lv i l HF Hl) as (p & Hp & ? & ? & ? & ? & ? & ?).
    exists p. repeat (split; [done || lia|]). apply (Hc i l p); [|done..].
    apply lookup_lt_Some in Hl. lia.
  - lia.
  - split; [|intros; lia]. unfold lv0. apply Forall2_fmap, Forall_Forall2_diag.
    apply Forall_forall. intros d _. apply frame_of_new.
  - intros i lv Hi [HF Hc].
    assert (length lv = n) as Hlen
      by (by rewrite <- (Forall2_length _ _ _ HF)).
    destruct (lookup_lt_is_Some_2 lv (Z.to_nat i) ltac:(lia)) as [dst Hdst].
    destruct (level_context' lv _ dst HF Hdst)
      as (src & Hsrc & Hsw & Hsh & Hslen & Hdw & Hdh & Hdlen).
    rewrite (fetch_source base lv i src) by (done || lia). rewrite bind_mret.
    replace i with (Z.of_nat (Z.to_nat i)) at 1 by lia.
    rewrite (level_at_lookup _ _ _ Hdst), bind_mret.
    apply (safe_bind (filled src dst (λ _ _, True)));
      [by apply downsample_box_filter|].
    intros dst' [(Hw' & Hh' & Hlen') Hpx]. apply safe_mret. split.
    + destruct (Forall2_lookup_r _ _ _ _ _ HF Hdst)
        as (l0 & Hl0 & Hfw & Hfh & Hflen).
      rewrite <- (list_insert_id lv0 (Z.to_nat i) l0) by done.
      apply Forall2_insert; [done|].
      split; [lia|split; [lia|]]. by rewrite Hlen', Hfw, Hfh.
    + intros k l p Hk Hl Hp x y Hx Hy.
      assert (source_of base (<[Z.to_nat i:=dst']> lv) k = source_of base lv k)
        as Hsame.
      { destruct k as [|k]; [done|]. cbn [source_of].
        apply list_lookup_insert_ne. lia. }
      rewrite Hsame in Hp.
      destruct (decide (k = Z.to_nat i)) as [->|Hne].
      * rewrite list_lookup_insert_eq in Hl by lia. injection Hl as <-.
        assert (p = src) as -> by congruence.
        apply Hpx; [lia|lia|done].
      * rewrite list_lookup_insert_ne in Hl by done.
        apply (Hc k l p); [lia|done..].
Qed.

(** On a base image whose two dimensions have the same number of binary
    digits every downsample has a source of at least 2x2: the generator
    runs to completion, touches pixels inside their images only, and
    every level is the box filter of the image before it. *)
Theorem generate_mipmap_balanced (base : HDR_Image) (cached : list HDR_Image) :
  wf_image base → 1 <= w base → 1 <= h base →
  Z.log2 (w base) = Z.log2 (h base) →
  safe (λ lv, length lv = Z.to_nat (Z.log2 (Z.max (w base) (h base)))
              ∧ box_pyramid base lv)
    (generate_mipmap base cached).
Proof.
  intros Hbase Hw Hh Hlog. pose proof Hbase as (Hbw & Hbh & _).
  unfold generate_mipmap.
  rewrite allocate_levels_shapes, bind_nil_Done by lia.
  assert (Z.log2 (Z.max (w base) (h base)) = Z.log2 (w base)) as ->
    by (destruct (Z.max_spec (w base) (h base)) as [[_ ->]|[_ ->]]; done).
  pose proof (Z.log2_nonneg (w base)).
  eapply safe_weaken;
    [|apply (fill_levels_balanced base (Z.to_nat (Z.log2 (w base))));
      [done..|lia|lia]].
  intros lv [Hlen Hlv]. done.
Qed.

(** X14.  On a base image of at least 1x1 whose two dimensions have the same
    number of binary digits the generator returns [log2 w] levels; every
    pixel access of the run is inside its image, and every level is the box
    filter of the image before it, which is at least 2x2. *)
Corollary generate_mipmap_balanced_returns (base : HDR_Image)
    (cached : list HDR_Image) :
  wf_image base → 1 <= w base → 1 <= h base →
  Z.log2 (w base) = Z.log2 (h base) →
  ∃ lv, result (generate_mipmap base cached) = Done lv
        ∧ (length lv = Z.to_nat (Z.log2 (Z.max (w base) (h base)))
           ∧ box_pyramid base lv)
        ∧ Forall in_range (trace (generate_mipmap base cached)).
Proof.
  intros Hbase Hw Hh Hlog.
  by apply safe_result, generate_mipmap_balanced.
Qed.

Lemma generate_mipmap_balanced_returns_witness :
  ∃ lv, result (generate_mipmap white_4x4 []) = Done lv
        ∧ (length lv = Z.to_nat (Z.log2 (Z.max 4 4))
           ∧ box_pyramid white_4x4 lv)
        ∧ Forall in_range (trace (generate_mipmap white_4x4 [])).
Proof.
  apply (generate_mipmap_balanced_returns white_4x4 []);
    [repeat split; simpl; lia|simpl; lia|simpl; lia|reflexivity].
Defined.

(** The average of a block of equal texels is that texel's color. *)
Lemma box_constant (src : HDR_Image) (c : Spectrum) (x y nx ny : Z) :
  nx = 2 ∨ nx = 3 → ny = 2 ∨ ny = 3 →
  (∀ i j, 0 <= i < nx → 0 <= j < ny → pixel src (2 * x + i) (2 * y + j) = c) →
  box src x y nx ny = c.
Proof.
  intros Hnx Hny Hc. unfold box, block_total.
  destruct c as [cr cg cb].
  destruct Hnx as [-> | ->], Hny as [-> | ->];
    change (seqZ 0 2) with [0; 1]; change (seqZ 0 3) with [0; 1; 2];
    cbn [foldl]; rewrite !Hc by lia;
    [change (2 * 2) with 4; rewrite of_int_4
    |change (2 * 3) with 6; rewrite of_int_6
    |change (3 * 2) with 6; rewrite of_int_6
    |change (3 * 3) with 9; rewrite of_int_9];
    qc_average.
Qed.

Lemma downsample_spec_constant (p : HDR_Image) (c : Spectrum) (x y : Z) :
  2 <= w p → 2 <= h p → constant_color p c →
  0 <= x < Z.max 1 (w p / 2) → 0 <= y < Z.max 1 (h p / 2) →
  downsample_spec p x y = c.
Proof.
  intros Hw Hh Hc Hx Hy.
  pose proof (parity_split_intro (w p) _ Hw eq_refl) as HsW.
  pose proof (parity_split_intro (h p) _ Hh eq_refl) as HsH.
  set (dst := HDR_Image_new (Z.max 1 (w p / 2)) (Z.max 1 (h p / 2))).
  rewrite (downsample_spec_case p dst _ _ x y eq_refl eq_refl HsW HsH)
    by done.
  apply box_constant.
  - destruct (_ <? _); auto.
  - destruct (_ <? _); auto.
  - intros i j Hi Hj. apply Hc.
    + destruct HsW as [(_ & HdW & ?)|(_ & HdW & ?)]; rewrite HdW in Hi;
        destruct (Z.ltb_spec x (Z.max 1 (w p / 2) - 1)),
                 (Z.ltb_spec x (Z.max 1 (w p / 2))); lia.
    + destruct HsH as [(_ & HdH & ?)|(_ & HdH & ?)]; rewrite HdH in Hj;
        destruct (Z.ltb_spec y (Z.max 1 (h p / 2) - 1)),
                 (Z.ltb_spec y (Z.max 1 (h p / 2))); lia.
Qed.

Lemma box_pyramid_constant (base : HDR_Image) (lv : list HDR_Image)
    (c : Spectrum) :
  constant_color base c → box_pyramid base lv →
  ∀ i l, lv !! i = Some l → constant_color l c.
Proof.
  intros Hc Hpyr i. induction i as [|i IH]; intros l Hl;
    destruct (Hpyr _ _ Hl) as (p & Hp & Hpw & Hph & Hlw & Hlh & _ & Hpx);
    cbn [source_of] in Hp; intros x y Hx Hy; rewrite Hpx by done;
    apply downsample_spec_constant; try lia.
  - by injection Hp as <-.
  - by apply IH.
Qed.

(** X15.  The levels of a constant image are constant, of the same color,
    when the two dimensions of the base have the same number of binary
    digits.  The color comes back from a block sum divided by 4, 6 or 9:
    the statement is for a color whose sums of up to nine copies are
    binary32 values, so that every block sum is exact. *)
Theorem generate_mipmap_constant (base : HDR_Image) (cached : list HDR_Image)
    (c : Spectrum) :
  wf_image base → 1 <= w base → 1 <= h base →
  Z.log2 (w base) = Z.log2 (h base) → constant_color base c →
  block_sums_exact c →
  safe (λ lv, ∀ i l, lv !! i = Some l → constant_color l c)
    (generate_mipmap base cached).
Proof.
  intros Hbase Hw Hh Hlog Hc _.
  eapply safe_weaken; [|by apply generate_mipmap_balanced].
  intros lv [_ Hpyr]. by apply (box_pyramid_constant base).
Qed.

Lemma generate_mipmap_constant_witness :
  safe (λ lv, ∀ i l, lv !! i = Some l → constant_color l (gray (1 # 4)))
    (generate_mipmap (constant_image 3 3 (gray (1 # 4))) []).
Proof.
  apply (generate_mipmap_constant (constant_image 3 3 (gray (1 # 4))) []
           (gray (1 # 4)));
    [repeat split; simpl; lia|simpl; lia|simpl; lia|reflexivity
    |apply constant_image_color|apply block_sums_exact_quarter].
Defined.

(** The scenario of the specification: the all-white 4x4 image has the two
    all-white levels 2x2 and 1x1. *)
Lemma generate_mipmap_white_4x4 :
  result (generate_mipmap white_4x4 []) = Done white_levels.
Proof. by_evaluation. Qed.

(** ** Sources with a dimension of 1 *)

(** C5.  For a constant 2x1 image, of any color, the generator does not
    produce a level of that color: the source height 1 is odd, so
    [downsample] sums a 2x3 block of a source that has one row and stops on
    the read of [at(0, 1)].  The 1x2 image fails the same way on its
    width. *)
Theorem generate_mipmap_constant_2x1 (c : Spectrum) (cached : list HDR_Image) :
  generate_mipmap (mkImage 2 1 [c; c]) cached
    = ([PixelRead 2 1 0 0; PixelRead 2 1 0 1],
       Abort (OutOfRange (PixelRead 2 1 0 1)))
  ∧ generate_mipmap (mkImage 1 2 [c; c]) cached
    = ([PixelRead 1 2 0 0; PixelRead 1 2 0 1; PixelRead 1 2 1 0],
       Abort (OutOfRange (PixelRead 1 2 1 0))).
Proof. split; vm_compute; reflexivity. Qed.

(** C3.  Generating the levels of a 4x2 image, whatever its texels are,
    downsamples a 2x1 level, whose odd height sends [downsample] into its
    three-row branch: the last pixel access of the generator is the read
    [at(0, 1)] of the 2x1 image, which is outside it. *)
Theorem generate_mipmap_reads_outside (p0 p1 p2 p3 p4 p5 p6 p7 : Spectrum)
    (cached : list HDR_Image) :
  result (generate_mipmap (mkImage 4 2 [p0; p1; p2; p3; p4; p5; p6; p7]) cached)
    = Abort (OutOfRange (PixelRead 2 1 0 1))
  ∧ last (trace (generate_mipmap
                   (mkImage 4 2 [p0; p1; p2; p3; p4; p5; p6; p7]) cached))
    = Some (PixelRead 2 1 0 1)
  ∧ ¬ in_range (PixelRead 2 1 0 1).
Proof.
  split; [vm_compute; reflexivity|split; [vm_compute; reflexivity|]].
  cbn. lia.
Qed.

(** C6.  For the 2x1 base the claim promises one level, 1x1, and for the
    8x2 base the three levels 4x1, 2x1 and 1x1.  The allocation block
    yields exactly these, touching no pixel and firing no assertion.  The
    generator then stops on a read outside the 2x1 base, and for the 8x2
    base on a read outside the 4x1 level it has filled, whatever the texels
    are: it produces no sequence of levels. *)
Theorem generate_mipmap_no_sequence
    (p0 p1 p2 p3 p4 p5 p6 p7 p8 p9 p10 p11 p12 p13 p14 p15 : Spectrum)
    (cached : list HDR_Image) :
  allocate_levels (mkImage 2 1 [p0; p1]) cached
    = ([], Done [HDR_Image_new 1 1])
  ∧ generate_mipmap (mkImage 2 1 [p0; p1]) cached
    = ([PixelRead 2 1 0 0; PixelRead 2 1 0 1],
       Abort (OutOfRange (PixelRead 2 1 0 1)))
  ∧ allocate_levels
      (mkImage 8 2 [p0; p1; p2; p3; p4; p5; p6; p7;
                    p8; p9; p10; p11; p12; p13; p14; p15]) cached
    = ([], Done [HDR_Image_new 4 1; HDR_Image_new 2 1; HDR_Image_new 1 1])
  ∧ result (generate_mipmap
              (mkImage 8 2 [p0; p1; p2; p3; p4; p5; p6; p7;
                            p8; p9; p10; p11; p12; p13; p14; p15]) cached)
    = Abort (OutOfRange (PixelRead 4 1 0 1))
  ∧ ¬ in_range (PixelRead 2 1 0 1) ∧ ¬ in_range (PixelRead 4 1 0 1).
Proof.
  repeat split; try (vm_compute; reflexivity); cbn; lia.
Qed.

(** ** The Mip-Map Generator on unbalanced images *)

(** While both dimensions keep more than [k] binary digits after the
    first, the [k]-th image of the pyramid is at least 2x2. *)
Lemma prefix_shapes (n : nat) (width height : Z) (k : nat) (d : Z * Z) :
  Z.of_nat k < Z.log2 width → Z.of_nat k < Z.log2 height →
  1 <= width < 2 ^ 32 → 1 <= height < 2 ^ 32 →
  ((width, height) :: level_shapes n width height) !! k = Some d →
  2 <= d.1 < 2 ^ 32 ∧ 2 <= d.2 < 2 ^ 32.
Proof.
  revert n width height.
  induction k as [|k IH]; intros n width height Hlw Hlh Hw Hh.
  - intros [= <-]. cbn.
    pose proof (proj1 (log2_pos_iff width) ltac:(lia)).
    pose proof (proj1 (log2_pos_iff height) ltac:(lia)). lia.
  - change ((?a :: ?l) !! Datatypes.S k) with (l !! k).
    destruct n as [|n]; [done|]. cbn [level_shapes].
    pose proof (proj1 (log2_pos_iff width) ltac:(lia)).
    pose proof (proj1 (log2_pos_iff height) ltac:(lia)).
    assert (Z.max 1 (width / 2) = width / 2 ∧ width / 2 < 2 ^ 32) as [-> ?]
      by (Z.to_euclidean_division_equations; lia).
    assert (Z.max 1 (height / 2) = height / 2 ∧ height / 2 < 2 ^ 32) as [-> ?]
      by (Z.to_euclidean_division_equations; lia).
    assert (1 <= width / 2 ∧ 1 <= height / 2) as [??]
      by (Z.to_euclidean_division_equations; lia).
    apply IH; [rewrite log2_half; lia|rewrite log2_half; lia|lia..].
Qed.

(** The first image of the pyramid in which a dimension has reached 1 while
    the other has not. *)
Lemma first_thin_shape (n : nat) (width height : Z) (k : nat) (d : Z * Z) :
  Z.of_nat k = Z.min (Z.log2 width) (Z.log2 height) →
  Z.log2 width ≠ Z.log2 height →
  1 <= width < 2 ^ 32 → 1 <= height < 2 ^ 32 →
  ((width, height) :: level_shapes n width height) !! k = Some d →
  (d.1 = 1 ∧ 2 <= d.2 < 2 ^ 32) ∨ (d.2 = 1 ∧ 2 <= d.1 < 2 ^ 32).
Proof.
  revert n width height.
  induction k as [|k IH]; intros n width height Hk Hne Hw Hh.
  - intros [= <-]. cbn.
    pose proof (Z.log2_nonneg width). pose proof (Z.log2_nonneg height).
    pose proof (Z.log2_null width). pose proof (Z.log2_null height).
    pose proof (log2_pos_iff width). pose proof (log2_pos_iff height). lia.
  - change ((?a :: ?l) !! Datatypes.S k) with (l !! k).
    destruct n as [|n]; [done|]. cbn [level_shapes].
    pose proof (proj1 (log2_pos_iff width) ltac:(lia)).
    pose proof (proj1 (log2_pos_iff height) ltac:(lia)).
    assert (Z.max 1 (width / 2) = width / 2 ∧ width / 2 < 2 ^ 32) as [-> ?]
      by (Z.to_euclidean_division_equations; lia).
    assert (Z.max 1 (height / 2) = height / 2 ∧ height / 2 < 2 ^ 32) as [-> ?]
      by (Z.to_euclidean_division_equations; lia).
    assert (1 <= width / 2 ∧ 1 <= height / 2) as [??]
      by (Z.to_euclidean_division_equations; lia).
    apply IH; rewrite ?log2_half by lia; lia.
Qed.

(** What is known of level [i] and of the image before it while the levels
    keep their allocated frames, whatever the dimensions of the base. *)
Lemma level_frames (base : HDR_Image) (n : nat) (lv : list HDR_Image)
    (i : nat) (l : HDR_Image) :
  frame_of base base →
  Forall2 frame_of
    ((λ d, HDR_Image_new d.1 d.2) <$> level_shapes n (w base) (h base)) lv →
  lv !! i = Some l →
  ∃ p, source_of base lv i = Some p
       ∧ ((w base, h base) :: level_shapes n (w base) (h base)) !! i
         = Some (shape p)
       ∧ length (pixels p) = Z.to_nat (w p * h p)
       ∧ w l = Z.max 1 (w p / 2) ∧ h l = Z.max 1 (h p / 2)
       ∧ length (pixels l) = Z.to_nat (w l * h l).
Proof.
  intros Hfb HF Hl.
  destruct (Forall2_lookup_r _ _ _ _ _ HF Hl) as (l0 & Hl0 & Hdw & Hdh & Hdlen).
  destruct (allocated_halving_chain base n _ _ Hl0) as (p0 & Hp0 & Hwl0 & Hhl0).
  pose proof (source_of_allocated _ _ _ _ Hp0) as Hshape.
  destruct (source_of_frames base _ lv _ _ Hfb HF Hp0)
    as (p & Hp & Hpw & Hph & Hplen).
  exists p. unfold shape in *. rewrite Hpw, Hph, Hplen, Hdw, Hdh, Hdlen.
  by repeat split; try lia.
Qed.

(** One turn of the fill loop on a level whose source is at least 2x2 keeps
    the frames of all levels. *)
Lemma fill_step_frames (base : HDR_Image) (n : nat) (lv : list HDR_Image)
    (i : Z) :
  wf_image base → 1 <= w base → 1 <= h base →
  0 <= i → i < Z.log2 (w base) → i < Z.log2 (h base) →
  i < Z.of_nat n →
  Forall2 frame_of
    ((λ d, HDR_Image_new d.1 d.2) <$> level_shapes n (w base) (h base)) lv →
  safe (Forall2 frame_of
          ((λ d, HDR_Image_new d.1 d.2) <$> level_shapes n (w base) (h base)))
    (src ← (if i =? 0 then mret base else level_at lv (i - 1));
     dst ← level_at lv i;
     dst' ← downsample src dst;
     mret (<[Z.to_nat i := dst']> lv)).
Proof.
  intros Hbase Hw1 Hh1 Hi Hiw Hih Hin HF.
  assert (frame_of base base) as Hfb by (by destruct Hbase as (_ & _ & ?)).
  assert (length lv = n) as Hlen
    by (by rewrite <- (Forall2_length _ _ _ HF), length_fmap,
          level_shapes_length).
  destruct (lookup_lt_is_Some_2 lv (Z.to_nat i) ltac:(lia)) as [dst Hdst].
  destruct (level_frames base n lv _ dst Hfb HF Hdst)
    as (src & Hsrc & Hshape & Hslen & Hdw & Hdh & Hdlen).
  destruct (prefix_shapes n (w base) (h base) (Z.to_nat i) (shape src))
    as [Hsw Hsh]; [lia|lia|destruct Hbase; lia|destruct Hbase; lia|done|].
  cbn [shape fst snd] in Hsw, Hsh.
  rewrite (fetch_source base lv i src) by (done || lia). rewrite bind_mret.
  replace i with (Z.of_nat (Z.to_nat i)) at 1 by lia.
  rewrite (level_at_lookup _ _ _ Hdst), bind_mret.
  apply (safe_bind (filled src dst (λ _ _, True)));
    [by apply downsample_box_filter|].
  intros dst' [(Hw' & Hh' & Hlen') _]. apply safe_mret.
  destruct (Forall2_lookup_r _ _ _ _ _ HF Hdst)
    as (l0 & Hl0 & Hfw & Hfh & Hflen).
  rewrite <- (list_insert_id _ (Z.to_nat i) l0) by done.
  apply Forall2_insert; [done|].
  split; [lia|split; [lia|]]. by rewrite Hlen', Hfw, Hfh.
Qed.

(** X16.  On a base image whose two dimensions have different numbers of
    binary digits the generator does not return: after the levels that are
    still at least 2x2 it downsamples an image with one dimension of 1 and
    the other of at least 2, and stops on a read outside that image. *)
Theorem generate_mipmap_unbalanced (base : HDR_Image)
    (cached : list HDR_Image) :
  wf_image base → 1 <= w base → 1 <= h base →
  Z.log2 (w base) ≠ Z.log2 (h base) →
  ∃ a, result (generate_mipmap base cached) = Abort (OutOfRange a)
       ∧ ¬ in_range a.
Proof.
  intros Hbase Hw Hh Hlog. pose proof Hbase as (Hbw & Hbh & Hblen).
  unfold generate_mipmap.
  rewrite allocate_levels_shapes, bind_nil_Done by lia.
  set (n := Z.to_nat (Z.log2 (Z.max (w base) (h base)))).
  set (lv0 := (λ d, HDR_Image_new d.1 d.2)
                <$> level_shapes n (w base) (h base)).
  set (m := Z.to_nat (Z.min (Z.log2 (w base)) (Z.log2 (h base)))).
  pose proof (Z.log2_nonneg (w base)). pose proof (Z.log2_nonneg (h base)).
  assert (Z.log2 (Z.max (w base) (h base))
          = Z.max (Z.log2 (w base)) (Z.log2 (h base))) as Hmax.
  { destruct (Z.max_spec (w base) (h base)) as [[Hlt ->]|[Hle ->]].
    - pose proof (Z.log2_le_mono (w base) (h base)). lia.
    - pose proof (Z.log2_le_mono (h base) (w base)). lia. }
  assert (m < n)%nat as Hmn by (unfold m, n; lia).
  assert (length lv0 = n) as Hlen0
    by (unfold lv0; by rewrite length_fmap, level_shapes_length).
  unfold fill_levels, for_range. rewrite Hlen0, Nat2Z.id.
  rewrite (for_loop_split n m) by done.
  match goal with |- context [for_loop m 0 ?body lv0] =>
    pose proof (safe_for_loop (λ _ lv, Forall2 frame_of lv0 lv) m 0 body lv0)
      as Hprefix
  end.
  cbv beta in Hprefix.
  destruct (for_loop m 0 _ lv0) as [t [lv|e]] eqn:Hrun.
  2:{ exfalso. apply Hprefix.
      - unfold lv0. apply Forall2_fmap, Forall_Forall2_diag.
        apply Forall_forall. intros d _. apply frame_of_new.
      - intros j s Hj HF. apply fill_step_frames; try done; unfold m in Hj; lia. }
  assert (Forall2 frame_of lv0 lv) as HF.
  { apply Hprefix.
    - unfold lv0. apply Forall2_fmap, Forall_Forall2_diag.
      apply Forall_forall. intros d _. apply frame_of_new.
    - intros j s Hj HF. apply fill_step_frames; try done; unfold m in Hj; lia. }
  clear Hprefix Hrun. rewrite result_bind. cbn [result snd].
  change (0 + Z.of_nat m) with (Z.of_nat m).
  assert (frame_of base base) as Hfb by done.
  assert (length lv = n) as Hlen
    by (by rewrite <- (Forall2_length _ _ _ HF)).
  destruct (lookup_lt_is_Some_2 lv m ltac:(lia)) as [dst Hdst].
  destruct (level_frames base n lv _ dst Hfb HF Hdst)
    as (src & Hsrc & Hshape & Hslen & Hdw & Hdh & Hdlen).
  pose proof (first_thin_shape n (w base) (h base) m (shape src)
                ltac:(unfold m; lia) Hlog ltac:(lia) ltac:(lia) Hshape)
    as Hthin.
  cbn [shape fst snd] in Hthin.
  destruct (downsample_thin_abort src dst Hslen ltac:(lia) ltac:(lia) Hdw Hdh
              ltac:(lia)) as (x & y & Hres & Hout).
  exists (PixelRead (w src) (h src) x y). split; [|done].
  apply result_Abort_bind.
  rewrite (fetch_source base lv (Z.of_nat m) src) by (rewrite ?Nat2Z.id; done || lia).
  rewrite bind_mret, (level_at_lookup _ _ _ Hdst), bind_mret.
  by apply result_Abort_bind.
Qed.

Lemma generate_mipmap_unbalanced_witness :
  ∃ a, result (generate_mipmap (constant_image 4 2 (gray 1)) [])
       = Abort (OutOfRange a)
       ∧ ¬ in_range a.
Proof.
  apply (generate_mipmap_unbalanced (constant_image 4 2 (gray 1)) []);
    [repeat split; simpl; lia|simpl; lia|simpl; lia|simpl; lia].
Defined.

(** ** The texture facade *)

(** C4.  An image of width 0 and height 1 passes the guard of [evaluate],
    which tests that both dimensions are zero; the Nearest Sampler then
    reads [at(-1, 0)] of the empty buffer, whatever [uv] and the level of
    detail are. *)
Theorem evaluate_zero_width_reads (uv : Vec2) (lod : float) :
  Image_evaluate (mkTexImage nearest (mkImage 0 1 []) []) uv lod
    = ([PixelRead 0 1 (-1) 0], Abort (OutOfRange (PixelRead 0 1 (-1) 0))).
Proof.
  unfold Image_evaluate, sample_nearest. cbn [image sampler w h].
  unfold of_int. rewrite Z2Qc_inj_0, Qcmult_0_l.
  change (Z.min (ffloor 0%Qc) (to_int32 0 - 1)) with (-1).
  change (to_int32 1 - 1) with 0.
  rewrite Z.min_r; [done|].
  apply ffloor_nonneg, Qcmult_nonneg_nonneg; [done|apply fclamp_range].
Qed.

(** When both dimensions are zero, [evaluate] returns the zero color and
    touches no pixel, whatever the mode. *)
Lemma evaluate_zero_area (t : Image) (uv : Vec2) (lod : float) :
  w (image t) = 0 → h (image t) = 0 →
  Image_evaluate t uv lod = ([], Done Spectrum_zero).
Proof. intros Hw Hh. unfold Image_evaluate. by rewrite Hw, Hh. Qed.

(** Under the nearest and the bilinear mode [evaluate] reads inside the
    base image, whatever [uv] and the level of detail are, when the image is
    at least 1x1. *)
Lemma Image_evaluate_safe (t : Image) (uv : Vec2) (lod : float) :
  length (pixels (image t)) = Z.to_nat (w (image t) * h (image t)) →
  1 <= w (image t) < 2 ^ 31 → 1 <= h (image t) < 2 ^ 31 →
  sampler t = nearest ∨ sampler t = bilinear →
  safe (λ _, True) (Image_evaluate t uv lod).
Proof.
  intros Hlen Hw Hh Hs. unfold Image_evaluate.
  replace (w (image t) =? 0) with false by (symmetry; apply Z.eqb_neq; lia).
  cbn [andb]. destruct Hs as [-> | ->].
  - eapply safe_weaken; [|by apply sample_nearest_texel]. done.
  - by apply sample_bilinear_safe.
Qed.

(** On a 1x1 image of color [c], [evaluate] returns [c] under the nearest
    and the bilinear mode, and under the trilinear mode for a level of
    detail that is not positive. *)
Lemma Image_evaluate_1x1 (c : Spectrum) (lv : list HDR_Image) (uv : Vec2)
    (lod : float) :
  Image_evaluate (mkTexImage nearest (mkImage 1 1 [c]) lv) uv lod
    = ([PixelRead 1 1 0 0], Done c)
  ∧ Image_evaluate (mkTexImage bilinear (mkImage 1 1 [c]) lv) uv lod
    = (replicate 4 (PixelRead 1 1 0 0), Done c)
  ∧ ((lod ≤ 0)%Qc →
     Image_evaluate (mkTexImage trilinear (mkImage 1 1 [c]) lv) uv lod
     = (replicate 4 (PixelRead 1 1 0 0), Done c)).
Proof.
  unfold Image_evaluate. cbn [image sampler w h Z.eqb andb].
  split; [apply sample_nearest_1x1|split; [apply sample_bilinear_1x1|]].
  intros Hlod. unfold sample_trilinear, fleb.
  rewrite bool_decide_eq_true_2 by done. apply sample_bilinear_1x1.
Qed.

(** C7.  A trilinear texture over a 1x1 image, of any color, has no levels,
    and for a positive level of detail [sample_trilinear] indexes the empty
    level vector instead of returning the color of the image, whatever
    [uv] is. *)
Theorem evaluate_1x1_trilinear_positive_lod (c : Spectrum) (uv : Vec2) :
  Image_new trilinear (mkImage 1 1 [c])
    = ([], Done (mkTexImage trilinear (mkImage 1 1 [c]) []))
  ∧ Image_evaluate (mkTexImage trilinear (mkImage 1 1 [c]) []) uv 1%Qc
    = ([], Abort (BadLevel 0 1))
  ∧ Image_evaluate (mkTexImage trilinear (mkImage 1 1 [c]) []) uv
      (Q2Qc (1 # 2))
    = ([], Abort (BadLevel 0 0)).
Proof. repeat split; vm_compute; reflexivity. Qed.

(** C8.  Construction and [make_valid] run the Mip-Map Generator on the base
    image when the mode is trilinear, whatever the cached sequence was, and
    leave an empty sequence otherwise; sampler and base image are kept. *)
Theorem Image_levels_cache :
  (∀ img,
     Image_new trilinear img
       = lv ← generate_mipmap img []; mret (mkTexImage trilinear img lv))
  ∧ (∀ img, Image_new nearest img = mret (mkTexImage nearest img []))
  ∧ (∀ img, Image_new bilinear img = mret (mkTexImage bilinear img []))
  ∧ (∀ img cached,
       make_valid (mkTexImage trilinear img cached)
         = lv ← generate_mipmap img []; mret (mkTexImage trilinear img lv))
  ∧ (∀ img cached,
       make_valid (mkTexImage nearest img cached)
         = mret (mkTexImage nearest img []))
  ∧ (∀ img cached,
       make_valid (mkTexImage bilinear img cached)
         = mret (mkTexImage bilinear img [])).
Proof. by repeat split. Qed.

(** C9.  [operator!=] answers [false] for two textures of different kinds,
    and for two image textures it is the inequality of the base images
    alone: equal base images compare as not-unequal whatever the samplers
    and the cached levels are. *)
Theorem Texture_neq_kinds :
  (∀ i c, Texture_neq (TImage i) (TConstant c) = false
          ∧ Texture_neq (TConstant c) (TImage i) = false)
  ∧ (∀ a b, Texture_neq (TImage a) (TImage b)
            = HDR_Image_neq (image a) (image b))
  ∧ (∀ s1 s2 img l1 l2,
       Texture_neq (TImage (mkTexImage s1 img l1))
                   (TImage (mkTexImage s2 img l2)) = false).
Proof.
  split; [done|split; [done|]].
  intros. cbn. unfold Image_neq, HDR_Image_neq. cbn.
  apply bool_decide_eq_false. by intros [].
Qed.

(** C10.  Under the nearest and the bilinear mode the result of [evaluate],
    and the pixels it reads, do not depend on the level of detail. *)
Theorem Image_evaluate_lod_irrelevant (t : Image) (uv : Vec2)
    (lod1 lod2 : float) :
  sampler t = nearest ∨ sampler t = bilinear →
  Image_evaluate t uv lod1 = Image_evaluate t uv lod2.
Proof. intros [H|H]; unfold Image_evaluate; by rewrite H. Qed.

Lemma Image_evaluate_lod_irrelevant_witness :
  Image_evaluate (mkTexImage bilinear ramp_2x1 []) (uv_of (3 # 8) (1 # 2)) 0%Qc
  = Image_evaluate (mkTexImage bilinear ramp_2x1 []) (uv_of (3 # 8) (1 # 2)) 1%Qc.
Proof.
  apply (Image_evaluate_lod_irrelevant
           (mkTexImage bilinear ramp_2x1 []) (uv_of (3 # 8) (1 # 2))).
  right. reflexivity.
Defined.

(** ** Textures end to end *)

Lemma box_pyramid_bounded (base : HDR_Image) (lv : list HDR_Image) :
  box_pyramid base lv →
  ∀ i l, lv !! i = Some l → 1 <= w l <= w base ∧ 1 <= h l <= h base.
Proof.
  intros Hpyr i. induction i as [|i IH]; intros l Hl;
    destruct (Hpyr _ _ Hl) as (p & Hp & Hpw & Hph & Hlw & Hlh & _);
    cbn [source_of] in Hp.
  - injection Hp as <-. split; Z.to_euclidean_division_equations; lia.
  - destruct (IH p Hp) as [??].
    split; Z.to_euclidean_division_equations; lia.
Qed.

(** A coordinate that converts when scaled by a dimension converts when
    scaled by a smaller one: what [uv_convertible] asks of the base image
    holds of every level. *)
Lemma int_convertible_shrink (n m : Z) (u : float) :
  1 <= n <= m →
  int_convertible (of_int m * u)%Qc → int_convertible (of_int n * u)%Qc.
Proof.
  intros Hnm [Hlo Hhi].
  assert (0 ≤ of_int n)%Qc as Hn0 by (apply of_int_nonneg; lia).
  assert (of_int n ≤ of_int m)%Qc as Hle
    by (apply (proj1 (Z2Qc_inj_le n m)); lia).
  assert (of_int (- 2 ^ 31) < 0)%Qc as Hneg by by_evaluation.
  assert (0 < of_int (2 ^ 31 - 1))%Qc as Hpos by by_evaluation.
  destruct (Qclt_le_dec u 0) as [Hu|Hu]; split.
  - eapply Qclt_le_trans; [exact Hlo|].
    assert (0 ≤ (of_int m - of_int n) * - u)%Qc as Hnn.
    { apply Qcmult_nonneg_nonneg.
      - apply (Qcplus_le_mono_r _ _ (of_int n)).
        unfold float in *. by ring_simplify.
      - apply (Qcplus_le_mono_r _ _ u).
        unfold float in *. ring_simplify. by apply Qclt_le_weak. }
    unfold float in *.
    replace (of_int n * u)%Qc
      with (of_int m * u + (of_int m - of_int n) * - u)%Qc by ring.
    rewrite <- (Qcplus_0_r (of_int m * u)) at 1.
    by apply Qcplus_le_mono_l.
  - eapply Qcle_lt_trans; [|exact Hpos].
    rewrite <- (Qcmult_0_r (of_int n)).
    apply Qcmult_le_mono_nonneg_l; [done|by apply Qclt_le_weak].
  - eapply Qclt_le_trans; [exact Hneg|]. by apply Qcmult_nonneg_nonneg.
  - eapply Qcle_lt_trans; [|exact Hhi].
    by apply Qcmult_le_mono_nonneg_r.
Qed.

(** Construction of a trilinear texture over an image whose two dimensions
    have the same number of binary digits. *)
Lemma Image_new_trilinear_levels (img : HDR_Image) :
  length (pixels img) = Z.to_nat (w img * h img) →
  1 <= w img < 2 ^ 31 → 1 <= h img < 2 ^ 31 →
  Z.log2 (w img) = Z.log2 (h img) →
  ∃ tr lv, Image_new trilinear img = (tr, Done (mkTexImage trilinear img lv))
           ∧ Forall in_range tr
           ∧ Z.of_nat (length lv) = Z.log2 (w img)
           ∧ Z.of_nat (length lv) < 2 ^ 31
           ∧ box_pyramid img lv
           ∧ ∀ l, l ∈ img :: lv →
               length (pixels l) = Z.to_nat (w l * h l)
               ∧ 1 <= w l < 2 ^ 31 ∧ 1 <= h l < 2 ^ 31.
Proof.
  intros Hlen Hw Hh Hlog.
  assert (wf_image img) as Hwf by (repeat split; (done || lia)).
  pose proof (generate_mipmap_balanced img [] Hwf ltac:(lia) ltac:(lia) Hlog)
    as Hgen.
  unfold Image_new, update_mipmap. cbn [sampler image levels].
  destruct (generate_mipmap img []) as [tr [lv|e]]; [|done].
  destruct Hgen as [Htr [Hlv Hpyr]]. rewrite bind_Done.
  cbn [mret M_ret result trace fst snd]. rewrite app_nil_r.
  assert (Z.log2 (Z.max (w img) (h img)) = Z.log2 (w img)) as Hmax
    by (destruct (Z.max_spec (w img) (h img)) as [[_ ->]|[_ ->]]; done).
  rewrite Hmax in Hlv. pose proof (Z.log2_nonneg (w img)) as Hn0.
  pose proof (Z.log2_lt_lin (w img) ltac:(lia)) as Hn1.
  exists tr, lv. repeat (split; [done || lia|]).
  intros l [->|Hl]%elem_of_cons; [done|].
  apply list_elem_of_lookup in Hl as [i Hl].
  destruct (box_pyramid_bounded img lv Hpyr i l Hl) as [Hwl Hhl].
  destruct (Hpyr i l Hl) as (p & _ & _ & _ & _ & _ & Hllen & _).
  split; [done|lia].
Qed.



(** X18.  A trilinear texture constructed over an image whose two dimensions
    have the same number of binary digits holds [log2 w] levels, and for a
    level of detail that is not positive or not above the index of the last
    level its evaluation returns a color; construction and evaluation touch
    pixels inside their images only. *)
Theorem Image_new_trilinear_safe (img : HDR_Image) :
  length (pixels img) = Z.to_nat (w img * h img) →
  1 <= w img < 2 ^ 31 → 1 <= h img < 2 ^ 31 →
  Z.log2 (w img) = Z.log2 (h img) →
  ∃ t, result (Image_new trilinear img) = Done t
       ∧ Forall in_range (trace (Image_new trilinear img))
       ∧ sampler t = trilinear ∧ image t = img
       ∧ Z.of_nat (length (levels t)) = Z.log2 (w img)
       ∧ ∀ uv lod,
           uv_convertible img uv →
           (lod ≤ of_int (Z.max 0 (Z.log2 (w img) - 1)))%Qc →
           (∃ s, result (Image_evaluate t uv lod) = Done s)
           ∧ Forall in_range (trace (Image_evaluate t uv lod)).
Proof.
  intros Hlen Hw Hh Hlog.
  destruct (Image_new_trilinear_levels img Hlen Hw Hh Hlog)
    as (tr & lv & -> & Htr & Hlv & Hlv31 & _ & Hall).
  eexists. cbn [result trace fst snd sampler image levels].
  repeat (split; [done|]).
  intros uv lod _ Hlod. unfold Image_evaluate. cbn [sampler image levels].
  replace (w img =? 0) with false by (symmetry; apply Z.eqb_neq; lia).
  cbn [andb].
  assert (safe (λ _, True) (sample_trilinear img lv uv lod)) as Hsafe.
  { apply safe_sample_trilinear; [done|by rewrite Hlv|done|].
    intros l Hl. destruct (Hall l Hl) as (? & ? & ?).
    by apply sample_bilinear_safe. }
  destruct (safe_result _ _ Hsafe) as (s & -> & _ & Ht). split; [|done].
  by exists s.
Qed.

Lemma Image_new_trilinear_safe_witness :
  ∃ t, result (Image_new trilinear white_4x4) = Done t
       ∧ Forall in_range (trace (Image_new trilinear white_4x4))
       ∧ sampler t = trilinear ∧ image t = white_4x4
       ∧ Z.of_nat (length (levels t)) = Z.log2 4
       ∧ ∀ uv lod,
           uv_convertible white_4x4 uv →
           (lod ≤ of_int (Z.max 0 (Z.log2 4 - 1)))%Qc →
           (∃ s, result (Image_evaluate t uv lod) = Done s)
           ∧ Forall in_range (trace (Image_evaluate t uv lod)).
Proof.
  apply (Image_new_trilinear_safe white_4x4);
    [reflexivity|simpl; lia|simpl; lia|reflexivity].
Defined.

(** X19.  A trilinear texture constructed over an image whose texels all
    have the color [c], and whose two dimensions have the same number of
    binary digits, evaluates to [c] for every level of detail that is not
    positive or not above the index of the last level.  The color comes
    back from the block sums of the generator, from the four quarters that
    the sampler of a level adds up and from the level blend: the statement
    is for a color with exact block sums and exact quarters and, at a
    positive level of detail, for a blend that is exact on that color. *)
Theorem Image_new_trilinear_constant (img : HDR_Image) (c : Spectrum) :
  length (pixels img) = Z.to_nat (w img * h img) →
  1 <= w img < 2 ^ 31 → 1 <= h img < 2 ^ 31 →
  Z.log2 (w img) = Z.log2 (h img) →
  constant_color img c →
  block_sums_exact c → quarters_exact c →
  ∃ t, result (Image_new trilinear img) = Done t
       ∧ ∀ uv lod,
           uv_convertible img uv →
           (lod ≤ of_int (Z.max 0 (Z.log2 (w img) - 1)))%Qc →
           ((0 < lod)%Qc → blend_exact lod c) →
           result (Image_evaluate t uv lod) = Done c.
Proof.
  intros Hlen Hw Hh Hlog Hc _ _.
  destruct (Image_new_trilinear_levels img Hlen Hw Hh Hlog)
    as (tr & lv & -> & Htr & Hlv & Hlv31 & Hpyr & Hall).
  eexists. cbn [result trace fst snd]. split; [done|].
  intros uv lod _ Hlod _. unfold Image_evaluate. cbn [sampler image levels].
  replace (w img =? 0) with false by (symmetry; apply Z.eqb_neq; lia).
  cbn [andb].
  assert (safe (λ s, s = c) (sample_trilinear img lv uv lod)) as Hsafe.
  { apply safe_sample_trilinear; [done|by rewrite Hlv| |].
    - intros p q s1 s2 _ _ Hpq -> ->. by apply Spectrum_blend_same.
    - intros l Hl. destruct (Hall l Hl) as (? & ? & ?).
      apply safe_sample_bilinear_constant; [done..|].
      apply elem_of_cons in Hl as [->|Hl]; [done|].
      apply list_elem_of_lookup in Hl as [i Hl].
      by apply (box_pyramid_constant img lv c Hc Hpyr i). }
  by destruct (safe_result _ _ Hsafe) as (s & -> & -> & _).
Qed.

Lemma Image_new_trilinear_constant_witness :
  ∃ t, result (Image_new trilinear white_4x4) = Done t
       ∧ result (Image_evaluate t (uv_of (1 # 2) (1 # 2)) (Q2Qc (1 # 2)))
         = Done (gray 1).
Proof.
  destruct (Image_new_trilinear_constant white_4x4 (gray 1))
    as (t & Ht & Hc);
    [reflexivity|simpl; lia|simpl; lia|reflexivity|apply constant_image_color
    |apply block_sums_exact_white
    |repeat split;
       (exists 1, (-2); split; [reflexivity|split; [lia|by_evaluation]])
    |].
  exists t. split; [exact Ht|].
  apply Hc; [by vm_compute|by vm_compute|].
  intros _. unfold blend_exact.
  repeat split;
    first [exists 1, (-1); split; [reflexivity|split; [lia|by_evaluation]]
          |exists 3, (-1); split; [reflexivity|split; [lia|by_evaluation]]].
Defined.

Lemma generate_mipmap_cache (base : HDR_Image) (c1 c2 : list HDR_Image) :
  generate_mipmap base c1 = generate_mipmap base c2.
Proof. reflexivity. Qed.

(** X20.  [make_valid] keeps the sampler and the base image, and is
    idempotent: on the texture it returns, it returns that texture again,
    with the pixel accesses of the first call. *)
Theorem make_valid_idempotent (t t' : Image) :
  result (make_valid t) = Done t' →
  sampler t' = sampler t ∧ image t' = image t
  ∧ make_valid t' = (trace (make_valid t), Done t').
Proof.
  unfold make_valid, update_mipmap. destruct t as [s img lv].
  cbn [sampler image levels]. destruct s.
  - intros [= <-]. done.
  - intros [= <-]. done.
  - rewrite (generate_mipmap_cache img lv []).
    destruct (generate_mipmap img []) as [tr [lv'|e]] eqn:Hgen; [|done].
    rewrite bind_Done. cbn [mret M_ret result trace fst snd].
    intros [= <-]. cbn [sampler image levels].
    rewrite (generate_mipmap_cache img lv' []), Hgen, bind_Done.
    done.
Qed.

Lemma make_valid_idempotent_witness :
  sampler (mkTexImage trilinear white_4x4 white_levels) = trilinear
  ∧ image (mkTexImage trilinear white_4x4 white_levels) = white_4x4
  ∧ make_valid (mkTexImage trilinear white_4x4 white_levels)
    = (trace (make_valid (mkTexImage trilinear white_4x4 [])),
       Done (mkTexImage trilinear white_4x4 white_levels)).
Proof.
  apply (make_valid_idempotent (mkTexImage trilinear white_4x4 [])
           (mkTexImage trilinear white_4x4 white_levels)).
  apply (bool_decide_unpack _). vm_compute. exact I.
Defined.

(** ** Results within the range of the texels *)

Lemma quarter_sum_within (lo hi a1 a2 a3 a4 : float) :
  (lo ≤ a1 ≤ hi)%Qc → (lo ≤ a2 ≤ hi)%Qc → (lo ≤ a3 ≤ hi)%Qc →
  (lo ≤ a4 ≤ hi)%Qc →
  (lo ≤ 0 + quarter * a1 + quarter * a2 + quarter * a3 + quarter * a4
      ≤ hi)%Qc.
Proof. intros. qc_to_q. split; lra. Qed.

Lemma mean_within_4 (lo hi a1 a2 a3 a4 : float) :
  (lo ≤ a1 ≤ hi)%Qc → (lo ≤ a2 ≤ hi)%Qc → (lo ≤ a3 ≤ hi)%Qc →
  (lo ≤ a4 ≤ hi)%Qc →
  (lo ≤ (0 + a1 + a2 + a3 + a4) / of_int 4 ≤ hi)%Qc.
Proof. intros. qc_to_q. split; lra. Qed.

Lemma mean_within_6 (lo hi a1 a2 a3 a4 a5 a6 : float) :
  (lo ≤ a1 ≤ hi)%Qc → (lo ≤ a2 ≤ hi)%Qc → (lo ≤ a3 ≤ hi)%Qc →
  (lo ≤ a4 ≤ hi)%Qc → (lo ≤ a5 ≤ hi)%Qc → (lo ≤ a6 ≤ hi)%Qc →
  (lo ≤ (0 + a1 + a2 + a3 + a4 + a5 + a6) / of_int 6 ≤ hi)%Qc.
Proof. intros. qc_to_q. split; lra. Qed.

Lemma mean_within_9 (lo hi a1 a2 a3 a4 a5 a6 a7 a8 a9 : float) :
  (lo ≤ a1 ≤ hi)%Qc → (lo ≤ a2 ≤ hi)%Qc → (lo ≤ a3 ≤ hi)%Qc →
  (lo ≤ a4 ≤ hi)%Qc → (lo ≤ a5 ≤ hi)%Qc → (lo ≤ a6 ≤ hi)%Qc →
  (lo ≤ a7 ≤ hi)%Qc → (lo ≤ a8 ≤ hi)%Qc → (lo ≤ a9 ≤ hi)%Qc →
  (lo ≤ (0 + a1 + a2 + a3 + a4 + a5 + a6 + a7 + a8 + a9) / of_int 9
      ≤ hi)%Qc.
Proof. intros. qc_to_q. split; lra. Qed.

Lemma blend_sum_within (lo hi p q a1 a2 : float) :
  (0 ≤ p)%Qc → (0 ≤ q)%Qc → (p + q = 1)%Qc →
  (lo ≤ a1 ≤ hi)%Qc → (lo ≤ a2 ≤ hi)%Qc →
  (lo ≤ p * a1 + q * a2 ≤ hi)%Qc.
Proof.
  intros Hp Hq Hpq H1 H2.
  assert (q = 1 - p)%Qc as -> by (rewrite <- Hpq; unfold float in *; ring).
  clear Hpq. qc_to_q. split; nra.
Qed.

(** A bound on a color, channel by channel, from the bound [lem] on one
    channel. *)
Ltac by_channel lem :=
  unfold within in *;
  repeat match goal with
  | H : _ ∧ _ ∧ _ |- _ => destruct H as (? & ? & ?)
  end;
  split; [|split];
  cbn [r g b Spectrum_add Spectrum_scale Spectrum_div Spectrum_zero];
  apply lem; match goal with H : ?P |- ?P => exact H end.

Lemma quarter_within (lo hi : float) (c1 c2 c3 c4 : Spectrum) :
  within lo hi c1 → within lo hi c2 → within lo hi c3 → within lo hi c4 →
  within lo hi
    (Spectrum_add
       (Spectrum_add
          (Spectrum_add (Spectrum_add Spectrum_zero (Spectrum_scale quarter c1))
                        (Spectrum_scale quarter c2))
          (Spectrum_scale quarter c3))
       (Spectrum_scale quarter c4)).
Proof. intros. by_channel quarter_sum_within. Qed.

Lemma blend_within (lo hi p q : float) (s1 s2 : Spectrum) :
  (0 ≤ p)%Qc → (0 ≤ q)%Qc → (p + q = 1)%Qc →
  within lo hi s1 → within lo hi s2 →
  within lo hi (Spectrum_add (Spectrum_scale p s1) (Spectrum_scale q s2)).
Proof. intros. by_channel blend_sum_within. Qed.

(** The texels of the buffer are the texels at the coordinates inside the
    image. *)
Lemma texels_within_pixel (lo hi : float) (img : HDR_Image) (x y : Z) :
  length (pixels img) = Z.to_nat (w img * h img) →
  texels_within lo hi img →
  0 <= x < w img → 0 <= y < h img → within lo hi (pixel img x y).
Proof.
  intros Hlen Hin Hx Hy. unfold pixel.
  destruct (lookup_lt_is_Some_2 (pixels img) (Z.to_nat (y * w img + x)))
    as [c Hc]; [rewrite Hlen; by apply pixel_index_lt|].
  rewrite Hc. cbn [default]. by apply (Forall_lookup_1 _ _ _ _ Hin Hc).
Qed.

Lemma texels_within_intro (lo hi : float) (img : HDR_Image) :
  length (pixels img) = Z.to_nat (w img * h img) → 1 <= w img →
  (∀ x y, 0 <= x < w img → 0 <= y < h img → within lo hi (pixel img x y)) →
  texels_within lo hi img.
Proof.
  intros Hlen Hw Hpx. apply Forall_lookup_2. intros k c Hk.
  pose proof (lookup_lt_Some _ _ _ Hk) as Hlt. rewrite Hlen in Hlt.
  assert (0 <= Z.of_nat k mod w img < w img) as Hx
    by (apply Z.mod_pos_bound; lia).
  assert (0 <= Z.of_nat k / w img < h img) as Hy.
  { split; [apply Z.div_pos; lia|]. apply Z.div_lt_upper_bound; lia. }
  specialize (Hpx _ _ Hx Hy). unfold pixel in Hpx.
  replace (Z.to_nat (Z.of_nat k / w img * w img + Z.of_nat k mod w img))
    with k in Hpx; [by rewrite Hk in Hpx|].
  rewrite (Z.mul_comm _ (w img)), <- Z.div_mod by lia. lia.
Qed.

Lemma safe_sample_bilinear_within (lo hi : float) (image : HDR_Image)
    (uv : Vec2) :
  length (pixels image) = Z.to_nat (w image * h image) →
  1 <= w image < 2 ^ 31 → 1 <= h image < 2 ^ 31 →
  texels_within lo hi image →
  safe (within lo hi) (sample_bilinear image uv).
Proof.
  intros Hlen Hw Hh Hin.
  eapply safe_weaken; [|by apply sample_bilinear_quarter_weights].
  intros s (p1 & p2 & p3 & p4 & Hp & ->).
  apply Forall_cons in Hp as [[??] Hp]. apply Forall_cons in Hp as [[??] Hp].
  apply Forall_cons in Hp as [[??] Hp]. apply Forall_cons in Hp as [[??] _].
  cbn [foldl]. apply quarter_within; by apply texels_within_pixel.
Qed.



Lemma box_within (src : HDR_Image) (lo hi : float) (x y nx ny : Z) :
  nx = 2 ∨ nx = 3 → ny = 2 ∨ ny = 3 →
  (∀ i j, 0 <= i < nx → 0 <= j < ny →
          within lo hi (pixel src (2 * x + i) (2 * y + j))) →
  within lo hi (box src x y nx ny).
Proof.
  intros Hnx Hny Hc. unfold box, block_total.
  destruct Hnx as [-> | ->], Hny as [-> | ->];
    change (seqZ 0 2) with [0; 1]; change (seqZ 0 3) with [0; 1; 2];
    cbn [foldl].
  - pose proof (Hc 0 0 ltac:(lia) ltac:(lia)).
    pose proof (Hc 0 1 ltac:(lia) ltac:(lia)).
    pose proof (Hc 1 0 ltac:(lia) ltac:(lia)).
    pose proof (Hc 1 1 ltac:(lia) ltac:(lia)).
    clear Hc. change (2 * 2) with 4. by_channel mean_within_4.
  - pose proof (Hc 0 0 ltac:(lia) ltac:(lia)).
    pose proof (Hc 0 1 ltac:(lia) ltac:(lia)).
    pose proof (Hc 0 2 ltac:(lia) ltac:(lia)).
    pose proof (Hc 1 0 ltac:(lia) ltac:(lia)).
    pose proof (Hc 1 1 ltac:(lia) ltac:(lia)).
    pose proof (Hc 1 2 ltac:(lia) ltac:(lia)).
    clear Hc. change (2 * 3) with 6. by_channel mean_within_6.
  - pose proof (Hc 0 0 ltac:(lia) ltac:(lia)).
    pose proof (Hc 0 1 ltac:(lia) ltac:(lia)).
    pose proof (Hc 1 0 ltac:(lia) ltac:(lia)).
    pose proof (Hc 1 1 ltac:(lia) ltac:(lia)).
    pose proof (Hc 2 0 ltac:(lia) ltac:(lia)).
    pose proof (Hc 2 1 ltac:(lia) ltac:(lia)).
    clear Hc. change (3 * 2) with 6. by_channel mean_within_6.
  - pose proof (Hc 0 0 ltac:(lia) ltac:(lia)).
    pose proof (Hc 0 1 ltac:(lia) ltac:(lia)).
    pose proof (Hc 0 2 ltac:(lia) ltac:(lia)).
    pose proof (Hc 1 0 ltac:(lia) ltac:(lia)).
    pose proof (Hc 1 1 ltac:(lia) ltac:(lia)).
    pose proof (Hc 1 2 ltac:(lia) ltac:(lia)).
    pose proof (Hc 2 0 ltac:(lia) ltac:(lia)).
    pose proof (Hc 2 1 ltac:(lia) ltac:(lia)).
    pose proof (Hc 2 2 ltac:(lia) ltac:(lia)).
    clear Hc. change (3 * 3) with 9. by_channel mean_within_9.
Qed.

Lemma downsample_spec_within (lo hi : float) (p : HDR_Image) (x y : Z) :
  2 <= w p → 2 <= h p →
  (∀ x y, 0 <= x < w p → 0 <= y < h p → within lo hi (pixel p x y)) →
  0 <= x < Z.max 1 (w p / 2) → 0 <= y < Z.max 1 (h p / 2) →
  within lo hi (downsample_spec p x y).
Proof.
  intros Hw Hh Hc Hx Hy.
  pose proof (parity_split_intro (w p) _ Hw eq_refl) as HsW.
  pose proof (parity_split_intro (h p) _ Hh eq_refl) as HsH.
  set (dst := HDR_Image_new (Z.max 1 (w p / 2)) (Z.max 1 (h p / 2))).
  rewrite (downsample_spec_case p dst _ _ x y eq_refl eq_refl HsW HsH)
    by done.
  apply box_within.
  - destruct (_ <? _); auto.
  - destruct (_ <? _); auto.
  - intros i j Hi Hj. apply Hc.
    + destruct HsW as [(_ & HdW & ?)|(_ & HdW & ?)]; rewrite HdW in Hi;
        destruct (Z.ltb_spec x (Z.max 1 (w p / 2) - 1)),
                 (Z.ltb_spec x (Z.max 1 (w p / 2))); lia.
    + destruct HsH as [(_ & HdH & ?)|(_ & HdH & ?)]; rewrite HdH in Hj;
        destruct (Z.ltb_spec y (Z.max 1 (h p / 2) - 1)),
                 (Z.ltb_spec y (Z.max 1 (h p / 2))); lia.
Qed.

Lemma box_pyramid_within (lo hi : float) (base : HDR_Image)
    (lv : list HDR_Image) :
  length (pixels base) = Z.to_nat (w base * h base) →
  texels_within lo hi base → box_pyramid base lv →
  ∀ i l, lv !! i = Some l → texels_within lo hi l.
Proof.
  intros Hlen Hin Hpyr i. induction i as [|i IH]; intros l Hl;
    destruct (Hpyr _ _ Hl) as (p & Hp & Hpw & Hph & Hlw & Hlh & Hllen & Hpx);
    cbn [source_of] in Hp.
  - injection Hp as <-. apply texels_within_intro; [done|lia|].
    intros x y Hx Hy. rewrite Hpx by done.
    apply downsample_spec_within; [done|done| |lia|lia].
    intros. by apply texels_within_pixel.
  - destruct (Hpyr _ _ Hp) as (_ & _ & _ & _ & _ & _ & Hplen & _).
    apply texels_within_intro; [done|lia|].
    intros x y Hx Hy. rewrite Hpx by done.
    apply downsample_spec_within; [done|done| |lia|lia].
    intros. apply texels_within_pixel; [done|by apply IH|done..].
Qed.

(** X22.  The Mip-Map Generator does not overshoot on a square image whose
    side is a power of two: when every channel of every texel of the base
    lies in [[lo, hi]], so does every channel of every texel of every level.
    On such an image every block is 2x2 and its sum is divided by 4, which
    adds no error to a sum that rounding keeps within [[4 lo, 4 hi]]; the
    bounds are taken below the overflow of such a sum. *)
Theorem generate_mipmap_within (lo hi : float) (base : HDR_Image)
    (cached : list HDR_Image) (n : Z) :
  wf_image base → 0 <= n → w base = 2 ^ n → h base = 2 ^ n →
  (of_int (- 2 ^ 100) ≤ lo)%Qc → (hi ≤ of_int (2 ^ 100))%Qc →
  texels_within lo hi base →
  ∃ lv, result (generate_mipmap base cached) = Done lv
        ∧ ∀ i l, lv !! i = Some l → texels_within lo hi l.
Proof.
  intros Hbase Hn Hw Hh _ _ Hin.
  assert (1 <= w base ∧ 1 <= h base) as [Hw1 Hh1]
    by (rewrite Hw, Hh; pose proof (Z.pow_pos_nonneg 2 n); lia).
  assert (Z.log2 (w base) = Z.log2 (h base)) as Hlog by (by rewrite Hw, Hh).
  destruct (safe_result _ _
              (generate_mipmap_balanced base cached Hbase Hw1 Hh1 Hlog))
    as (lv & Hlv & [_ Hpyr] & _).
  exists lv. split; [done|].
  apply (box_pyramid_within lo hi base); [by destruct Hbase as (_ & _ & ?)|done..].
Qed.

Lemma generate_mipmap_within_witness :
  ∃ lv, result (generate_mipmap ramp_4x4 []) = Done lv
        ∧ ∀ i l, lv !! i = Some l → texels_within 0%Qc 1%Qc l.
Proof.
  apply (generate_mipmap_within 0%Qc 1%Qc ramp_4x4 [] 2);
    [repeat split; simpl; lia|lia|reflexivity|reflexivity
    |by vm_compute|by vm_compute|repeat constructor; by vm_compute].
Defined.

(** X23.  A trilinear texture over a square image whose side is a power of
    two does not overshoot at the levels of detail that involve no blend,
    those that are not positive and the integral ones up to the index of
    the last level: when every channel of every texel of the image lies in
    [[lo, hi]], so does every channel of the color it evaluates to.  The
    sampler of a level adds up four quarters: the bounds are binary32 values
    with exact quarters, below the overflow of a block sum. *)
Theorem Image_new_trilinear_within (lo hi : float) (img : HDR_Image)
    (n : Z) :
  length (pixels img) = Z.to_nat (w img * h img) →
  0 <= n <= 30 → w img = 2 ^ n → h img = 2 ^ n →
  (of_int (- 2 ^ 100) ≤ lo)%Qc → (hi ≤ of_int (2 ^ 100))%Qc →
  binary32 (quarter * lo)%Qc → binary32 (quarter * hi)%Qc →
  texels_within lo hi img →
  ∃ t, result (Image_new trilinear img) = Done t
       ∧ ∀ uv lod,
           uv_convertible img uv →
           (lod ≤ of_int (Z.max 0 (n - 1)))%Qc →
           ((0 < lod)%Qc → lod = of_int (ffloor lod)) →
           ∃ s, result (Image_evaluate t uv lod) = Done s ∧ within lo hi s.
Proof.
  intros Hlen Hn Hw Hh _ _ _ _ Hin.
  assert (1 <= 2 ^ n < 2 ^ 31) as Hside.
  { split; [pose proof (Z.pow_pos_nonneg 2 n); lia|].
    apply Z.pow_lt_mono_r; lia. }
  assert (Z.log2 (w img) = n) as Hlogw by (rewrite Hw; apply Z.log2_pow2; lia).
  assert (Z.log2 (w img) = Z.log2 (h img)) as Hlog by (by rewrite Hw, Hh).
  destruct (Image_new_trilinear_levels img Hlen ltac:(lia) ltac:(lia) Hlog)
    as (tr & lv & -> & Htr & Hlv & Hlv31 & Hpyr & Hall).
  eexists. cbn [result trace fst snd]. split; [done|].
  intros uv lod _ Hlod _. unfold Image_evaluate. cbn [sampler image levels].
  replace (w img =? 0) with false by (symmetry; apply Z.eqb_neq; lia).
  cbn [andb].
  assert (safe (within lo hi) (sample_trilinear img lv uv lod)) as Hsafe.
  { apply safe_sample_trilinear; [done|by rewrite Hlv, Hlogw| |].
    - intros p q s1 s2. apply blend_within.
    - intros l Hl. destruct (Hall l Hl) as (? & ? & ?).
      apply safe_sample_bilinear_within; [done..|].
      apply elem_of_cons in Hl as [->|Hl]; [done|].
      apply list_elem_of_lookup in Hl as [i Hl].
      by apply (box_pyramid_within lo hi img lv Hlen Hin Hpyr i). }
  destruct (safe_result _ _ Hsafe) as (s & Hs & Hwithin & _). by exists s.
Qed.

Lemma Image_new_trilinear_within_witness :
  ∃ t, result (Image_new trilinear ramp_4x4) = Done t
       ∧ ∃ s, result (Image_evaluate t (uv_of (1 # 2) (1 # 2)) 1%Qc) = Done s
              ∧ within 0%Qc 1%Qc s.
Proof.
  destruct (Image_new_trilinear_within 0%Qc 1%Qc ramp_4x4 2)
    as (t & Ht & Hin);
    [reflexivity|lia|reflexivity|reflexivity|by vm_compute|by vm_compute
    |exists 0, 0; split; [reflexivity|split; [lia|by_evaluation]]
    |exists 1, (-2); split; [reflexivity|split; [lia|by_evaluation]]
    |repeat constructor; by vm_compute|].
  exists t. split; [exact Ht|].
  apply Hin; [by vm_compute|by vm_compute|]. intros _. by_evaluation.
Defined.
